(** * yosef_video_downloader: the batch job of [main.py]

    A shallow embedding of [main.py]: the retention sweep of the shared
    Drive folder, the channel catalogue, the history list
    [past_videos.json] and the per-channel, per-video synchronisation loop.

    The program is sequential and talks to three collaborators (Drive, the
    YouTube Data API, pytubefix).  It is embedded in a state-and-exception
    monad: the state carries the Drive folder, the local history file, the
    in-memory list [past_videos] and a log of every request and printed line;
    what a collaborator answers is read from an environment [Env], indexed by
    the number of answers consumed so far, so that every behaviour of the
    collaborators is some environment.

    The two JSON files, [past_videos.json] and the remote [channels.json],
    are taken to hold arrays of strings, as the program expects; a datetime
    is the number of microseconds of its naive value.  The definitions come
    first, in the order of the source; the properties follow. *)

From Stdlib Require Import List String Ascii ZArith Bool Arith Lia.
From Stdlib Require Import DecimalString RelationClasses.
Import ListNotations.

Local Open Scope string_scope.
Local Open Scope list_scope.

(** ** Constants of the module (lines 16-19) *)

Definition OUTPUT_DIR : string := "videos".
Definition LAST_VIDEO_N : nat := 3.

(** ** Data *)

(** Python exceptions: the class decides which [except] clause catches it,
    the text is what [str(e)] prints.  Every class below derives from
    [Exception]. *)
Inductive exn_class :=
| HttpError | TypeError | IndexError | AttributeError | ValueError
| FileNotFoundError | OtherException.

Record exn := mkExn { exn_cls : exn_class; exn_str : string }.

Definition is_HttpError (e : exn) : bool :=
  match exn_cls e with HttpError => true | _ => false end.

(** A file of the shared folder, as [files().list] reports it. *)
Record drive_file := mkFile {
  file_id : string;
  file_name : string;
  file_createdTime : string }.

(** An item of [playlistItems().list]: [snippet.resourceId.videoId] and
    [snippet.title]. *)
Record playlist_item := mkItem { videoId : string; title : string }.

(** A pytubefix stream, with the attributes the program filters on.  The
    library reads [resolution] off its table of itags: it is [None] for an
    audio stream and for an itag the table does not have. *)
Record stream := mkStream {
  itag : nat;
  is_progressive : bool;
  subtype : string;
  resolution : option string }.

(** What [get_latest_video_url] hands back: the list [videos], or the
    two-element tuple [(None, message)]. *)
Inductive resolved :=
| Videos (videos : list (string * string))
| NoneAnd (message : string).

(** Requests sent, files touched and lines printed, newest first in the log. *)
Inductive event :=
| Print (line : string)
| PrintNow (now : Z)
| DriveList (name_filter : option string)
| DriveDelete (fileId : string)
| DriveGetMedia (fileId : string)
| DriveCreate (file_path name : string)
| ChannelsList (channel_id : string)
| PlaylistItems (playlistId : string) (maxResults : nat)
| Streams (video_url : string)
| StreamDownload (tag : nat) (output_path : string)
| OsRemove (file_path : string)
| OpenRead (path : string)
| OpenWrite (path : string) (content : list string).

(** The collaborators.  [clock t] is the naive local time, in microseconds,
    that [datetime.datetime.now()] returns when it is the [t]-th answer;
    [fromisoformat] is the library parser ([None]: it raises ValueError). *)
Record Env := mkEnv {
  clock : nat -> Z;
  fromisoformat : string -> option Z;
  files_list_reply : nat -> option exn;
  files_delete_reply : nat -> string -> option exn;
  get_media_reply : nat -> string -> list nat * (exn + list string);
  files_create_reply : nat -> string -> string -> exn + (string * string);
  channels_list_reply : nat -> string -> exn + list string;
  playlist_items_reply : nat -> string -> nat -> exn + list playlist_item;
  streams_reply : nat -> string -> exn + list stream;
  stream_download_reply : nat -> stream -> string -> option exn;
  os_remove_reply : nat -> string -> option exn }.

(** The state of a run: [tick] counts the answers consumed, [drive] is the
    content of the folder PARENT_FOLDER_ID, [past_videos_json] the local
    history file ([None]: it does not exist), [past_videos] the list held
    in memory by [main]. *)
Record state := mkState {
  tick : nat;
  drive : list drive_file;
  past_videos_json : option (list string);
  past_videos : list string;
  log : list event }.

(** A new process over the same outside world: empty memory, empty log. *)
Definition restart (s : state) : state :=
  mkState (tick s) (drive s) (past_videos_json s) [] [].

(** ** The monad *)

Inductive outcome (A : Type) :=
| Ret (a : A)
| Raise (e : exn).
Arguments Ret {A} a.
Arguments Raise {A} e.

Definition M (A : Type) : Type := state -> outcome A * state.

Definition ret {A} (a : A) : M A := fun s => (Ret a, s).

Definition raise {A} (e : exn) : M A := fun s => (Raise e, s).

Definition bind {A B} (m : M A) (k : A -> M B) : M B :=
  fun s => match m s with
           | (Ret a, s') => k a s'
           | (Raise e, s') => (Raise e, s')
           end.

(** [try: m / except Exception as e: h e]; a narrower clause re-raises in
    its handler. *)
Definition try_except {A} (m : M A) (h : exn -> M A) : M A :=
  fun s => match m s with
           | (Ret a, s') => (Ret a, s')
           | (Raise e, s') => h e s'
           end.

Declare Scope m_scope.
Delimit Scope m_scope with m.
Notation "x <- m ;; k" := (bind m (fun x => k))
  (at level 100, m at next level, right associativity) : m_scope.
Notation "m ;; k" := (bind m (fun _ => k))
  (at level 100, right associativity) : m_scope.
Local Open Scope m_scope.

(** [for x in l: body x] *)
Fixpoint for_each {A} (l : list A) (body : A -> M unit) : M unit :=
  match l with
  | [] => ret tt
  | x :: rest => body x ;; for_each rest body
  end.

Definition emit (e : event) : M unit :=
  fun s => (Ret tt, mkState (tick s) (drive s) (past_videos_json s)
                            (past_videos s) (e :: log s)).

Definition print (line : string) : M unit := emit (Print line).

(** Consume one answer of the environment. *)
Definition next_tick : M nat :=
  fun s => (Ret (tick s), mkState (S (tick s)) (drive s) (past_videos_json s)
                                  (past_videos s) (log s)).

Definition get_drive : M (list drive_file) := fun s => (Ret (drive s), s).

Definition modify_drive (f : list drive_file -> list drive_file) : M unit :=
  fun s => (Ret tt, mkState (tick s) (f (drive s)) (past_videos_json s)
                            (past_videos s) (log s)).

Definition get_past_videos : M (list string) :=
  fun s => (Ret (past_videos s), s).

Definition set_past_videos (l : list string) : M unit :=
  fun s => (Ret tt, mkState (tick s) (drive s) (past_videos_json s)
                            l (log s)).

Definition of_option (r : option exn) : M unit :=
  match r with Some e => raise e | None => ret tt end.

Definition of_sum {A} (r : exn + A) : M A :=
  match r with inl e => raise e | inr a => ret a end.

(** ** Strings *)

Definition str_of_nat (n : nat) : string :=
  NilZero.string_of_uint (Nat.to_uint n).

(** [s[:-1]]; a string is the sequence of its characters, each of them one
    [ascii]. *)
Fixpoint drop_last (s : string) : string :=
  match s with
  | EmptyString => EmptyString
  | String c EmptyString => EmptyString
  | String c rest => String c (drop_last rest)
  end.

(** [os.path.join(a, b)] for a non-empty [a] without trailing slash: an
    absolute [b] discards [a]. *)
Definition os_path_join (a b : string) : string :=
  match b with
  | String "/"%char _ => b
  | _ => a ++ "/" ++ b
  end.

(** [x in l] on a Python list of strings. *)
Definition contains (l : list string) (x : string) : bool :=
  existsb (String.eqb x) l.

(** ** pytubefix's StreamQuery

    [filter] keeps the order of the query and [first] is its head.
    [order_by('resolution')] first leaves out the streams whose resolution
    is [None], then sorts the others, stably and ascending, by the integer
    spelled by the digits of the label; when some label has no digit the
    library falls back to comparing the labels as strings. *)

Definition digit_of (c : ascii) : option nat :=
  let n := nat_of_ascii c in
  if ((48 <=? n)%nat && (n <=? 57)%nat)%bool then Some (n - 48)%nat else None.

Fixpoint digits (s : string) : list nat :=
  match s with
  | EmptyString => []
  | String c rest =>
      match digit_of c with
      | Some d => d :: digits rest
      | None => digits rest
      end
  end.

(** [int("".join(filter(str.isdigit, label)))]; [None] is ValueError. *)
Definition int_of_digits (label : string) : option nat :=
  match digits label with
  | [] => None
  | ds => Some (fold_left (fun acc d => 10 * acc + d)%nat ds 0%nat)
  end.

Fixpoint insert_by {A} (le : A -> A -> bool) (x : A) (l : list A) : list A :=
  match l with
  | [] => [x]
  | y :: rest => if le x y then x :: l else y :: insert_by le x rest
  end.

(** [sorted(l, key=...)]: stable. *)
Definition sorted_by {A} (le : A -> A -> bool) (l : list A) : list A :=
  fold_right (insert_by le) [] l.

(** [getattr(s, 'resolution') is not None] *)
Definition has_resolution (s : stream) : bool :=
  match resolution s with Some _ => true | None => false end.

(** The label of a stream that has one. *)
Definition label (s : stream) : string :=
  match resolution s with Some r => r | None => "" end.

Definition res_key (s : stream) : nat :=
  match int_of_digits (label s) with Some n => n | None => 0%nat end.

Definition order_by_resolution (l : list stream) : list stream :=
  let has_attribute := filter has_resolution l in
  if forallb (fun s => match int_of_digits (label s) with
                       | Some _ => true | None => false end) has_attribute
  then sorted_by (fun a b => (res_key a <=? res_key b)%nat) has_attribute
  else sorted_by (fun a b => String.leb (label a) (label b)) has_attribute.

Definition first {A} (l : list A) : option A := hd_error l.

(** [filter(progressive=True, file_extension='mp4')] *)
Definition progressive_mp4 (s : stream) : bool :=
  is_progressive s && (subtype s =? "mp4").

(** [filter(res='480p')] *)
Definition res_480p (s : stream) : bool :=
  match resolution s with Some r => r =? "480p" | None => false end.

(** Lines 120-124 of [download_video]: the stream that is downloaded;
    [None] when the ordering leaves no stream. *)
Definition select_stream (offered : list stream) : option stream :=
  let streams := order_by_resolution (filter progressive_mp4 offered) in
  match first (filter res_480p streams) with
  | Some s => Some s
  | None => first streams
  end.

(** ** The program *)

Section Program.

Variable E : Env.

(** *** Requests to the collaborators

    Client construction ([get_drive_service], [discovery.build],
    [get_media], [MediaFileUpload]) sends nothing and is taken to succeed: a
    run whose credentials cannot be read stops at line 37, before anything
    below.  [files().list] is taken to report the whole folder. *)

Definition datetime_now : M Z :=
  t <- next_tick ;; ret (clock E t).

(** [service.files().list(q=...).execute().get('files', [])] *)
Definition files_list (name_filter : option string) : M (list drive_file) :=
  emit (DriveList name_filter) ;;
  t <- next_tick ;;
  of_option (files_list_reply E t) ;;
  d <- get_drive ;;
  ret (match name_filter with
       | None => d
       | Some n => filter (fun f => file_name f =? n) d
       end).

(** [service.files().delete(fileId=video_id).execute()] *)
Definition files_delete (video_id : string) : M unit :=
  emit (DriveDelete video_id) ;;
  t <- next_tick ;;
  of_option (files_delete_reply E t video_id) ;;
  modify_drive (filter (fun f => negb (file_id f =? video_id))).

(** Lines 145-156: the chunked download, one printed line per chunk, and
    [json.load] of what was received. *)
Definition get_media_json (fileId : string) : M (list string) :=
  emit (DriveGetMedia fileId) ;;
  t <- next_tick ;;
  let (chunks, content) := get_media_reply E t fileId in
  for_each chunks (fun percent =>
    print ("Download " ++ str_of_nat percent ++ "%.")) ;;
  of_sum content.

(** [service.files().create(body=file_metadata, media_body=media).execute()]:
    the provider answers with the identifier and creation time of the new
    file. *)
Definition files_create (file_path file_name : string) : M unit :=
  emit (DriveCreate file_path file_name) ;;
  t <- next_tick ;;
  created <- of_sum (files_create_reply E t file_path file_name) ;;
  modify_drive (fun d => d ++ [mkFile (fst created) file_name (snd created)]).

Definition channels_list (channel_id : string) : M (list string) :=
  emit (ChannelsList channel_id) ;;
  t <- next_tick ;;
  of_sum (channels_list_reply E t channel_id).

Definition playlist_items (playlistId : string) (maxResults : nat)
  : M (list playlist_item) :=
  emit (PlaylistItems playlistId maxResults) ;;
  t <- next_tick ;;
  of_sum (playlist_items_reply E t playlistId maxResults).

(** [YouTube(video_url).streams] *)
Definition yt_streams (video_url : string) : M (list stream) :=
  emit (Streams video_url) ;;
  t <- next_tick ;;
  of_sum (streams_reply E t video_url).

(** [stream.download(output_path=dirname, filename=basename)]: directory and
    file name are functions of [output_path], which stands for both. *)
Definition stream_download (st : stream) (output_path : string) : M unit :=
  emit (StreamDownload (itag st) output_path) ;;
  t <- next_tick ;;
  of_option (stream_download_reply E t st output_path).

Definition os_remove (file_path : string) : M unit :=
  emit (OsRemove file_path) ;;
  t <- next_tick ;;
  of_option (os_remove_reply E t file_path).

(** *** Lines 22-24

    The creation times that Drive reports end in [Z]: what line 23 parses
    is the text before it, a datetime without offset.  [fromisoformat E d]
    is that naive value, and the comparison of line 24, between it and the
    naive local time less the threshold, is taken within the range of
    [datetime]. *)

Definition timedelta_days (days : Z) : Z := (days * 86400 * 1000000)%Z.

Definition is_older_than_days (date_str : string) (days : Z) : M bool :=
  match fromisoformat E (drop_last date_str) with
  | None =>
      raise (mkExn ValueError
               ("Invalid isoformat string: '" ++ drop_last date_str ++ "'"))
  | Some created_time =>
      now <- datetime_now ;;
      ret (created_time <? now - timedelta_days days)%Z
  end.

(** *** Lines 27-33 *)

Definition delete_video_from_drive (video_id : string) : M unit :=
  try_except
    (files_delete video_id ;;
     print ("Deleted video from Drive: " ++ video_id))
    (fun e =>
       if is_HttpError e
       then print ("Error deleting video from Drive: " ++ exn_str e)
       else raise e).

(** *** Lines 36-49 *)

Definition delete_old_videos_item (days_to_keep : Z) (item : drive_file)
  : M unit :=
  let created_time := file_createdTime item in
  older <- is_older_than_days created_time days_to_keep ;;
  if older : bool then
    print ("Deleting old video: " ++ file_name item ++ " created at "
           ++ created_time) ;;
    delete_video_from_drive (file_id item)
  else ret tt.

Definition delete_old_videos (days_to_keep : Z) : M unit :=
  items <- files_list None ;;
  for_each items (delete_old_videos_item days_to_keep).

(** *** Lines 58-115 *)

(** Lines 103-108: [range(last_n)] indexes the reply; a reply shorter than
    [last_n] raises IndexError. *)
Fixpoint extract_videos (items : list playlist_item) (i count : nat)
  : M (list (string * string)) :=
  match count with
  | O => ret []
  | S count' =>
      match nth_error items i with
      | None => raise (mkExn IndexError "list index out of range")
      | Some it =>
          let video_url := ("https://www.youtube.com/watch?v=" ++ videoId it)%string in
          rest <- extract_videos items (S i) count' ;;
          ret ((video_url, title it) :: rest)
      end
  end.

Definition get_latest_video_url (channel_id : string) (last_n : nat)
  : M resolved :=
  if channel_id =? "" then
    ret (NoneAnd "Could not extract channel identifier from URL")
  else
    try_except
      (response <- channels_list channel_id ;;
       match response with
       | [] => ret (NoneAnd ("No channel found with ID: " ++ channel_id))
       | uploads_playlist_id :: _ =>
           response <- playlist_items uploads_playlist_id last_n ;;
           match response with
           | [] => ret (NoneAnd "Channel has no videos")
           | _ :: _ =>
               videos <- extract_videos response 0 last_n ;;
               ret (Videos videos)
           end
       end)
      (fun e =>
         if is_HttpError e
         then ret (NoneAnd ("API Error: " ++ exn_str e))
         else ret (NoneAnd ("An unexpected error occurred: " ++ exn_str e))).

(** *** Lines 118-127 *)

Definition download_video (video_url output_path : string) : M unit :=
  offered <- yt_streams video_url ;;
  match select_stream offered with
  | None =>
      raise (mkExn AttributeError
               "'NoneType' object has no attribute 'download'")
  | Some st => stream_download st output_path
  end.

(** *** Lines 130-156 *)

Definition download_channels_list_from_drive : M (option (list string)) :=
  items <- files_list (Some "channels.json") ;;
  match items with
  | [] => print "file channels.json not found" ;; ret None
  | item :: _ =>
      channels <- get_media_json (file_id item) ;;
      ret (Some channels)
  end.

(** *** Lines 159-169 *)

Definition upload_file (file_path file_name : string) : M unit :=
  files_create file_path file_name.

(** *** Lines 172-210 *)

(** Lines 194-202, the body of the inner [try]: the transfer of one video
    and, after it, the append to the history list. *)
Definition main_video_try (video_url video_title : string) : M unit :=
  let file_name := (video_title ++ ".mp4")%string in
  let file_path := os_path_join OUTPUT_DIR file_name in
  download_video video_url file_path ;;
  print ("Downloaded: " ++ video_title) ;;
  upload_file file_path file_name ;;
  os_remove file_path ;;
  past <- get_past_videos ;;
  set_past_videos (past ++ [video_url]) ;;
  print ("Uploaded: " ++ video_title).

(** Lines 190-204, the body of the loop over the videos of a channel. *)
Definition main_video (video : string * string) : M unit :=
  let (video_url, video_title) := video in
  past <- get_past_videos ;;
  if contains past video_url then
    print ("Skipping: " ++ video_title)
  else
    try_except
      (main_video_try video_url video_title)
      (fun e => print ("Error: " ++ exn_str e)).

(** [not videos]: an empty list is falsy, the tuple [(None, message)] is
    not. *)
Definition falsy (videos : resolved) : bool :=
  match videos with
  | Videos [] => true
  | _ => false
  end.

(** Lines 186-204, the body of the outer [try].  Iterating the tuple
    [(None, message)] meets [None] first, which cannot be unpacked into
    [video_url, video_title]. *)
Definition main_channel_try (channel_id : string) : M unit :=
  videos <- get_latest_video_url channel_id LAST_VIDEO_N ;;
  if falsy videos then ret tt
  else
    match videos with
    | Videos l => for_each l main_video
    | NoneAnd _ =>
        raise (mkExn TypeError "cannot unpack non-iterable NoneType object")
    end.

(** Lines 185-207, the body of the loop over the channels. *)
Definition main_channel (channel_id : string) : M unit :=
  try_except
    (main_channel_try channel_id)
    (fun e => print ("Error: " ++ exn_str e)).

(** Lines 181-182 *)
Definition load_past_videos : M unit :=
  emit (OpenRead "past_videos.json") ;;
  fun s =>
    match past_videos_json s with
    | None =>
        (Raise (mkExn FileNotFoundError
                  "[Errno 2] No such file or directory: 'past_videos.json'"),
         s)
    | Some l => set_past_videos l s
    end.

(** Lines 209-210 *)
Definition dump_past_videos : M unit :=
  fun s =>
    (Ret tt, mkState (tick s) (drive s) (Some (past_videos s))
                     (past_videos s)
                     (OpenWrite "past_videos.json" (past_videos s) :: log s)).

Definition print_now : M unit :=
  now <- datetime_now ;; emit (PrintNow now).

Definition main : M unit :=
  delete_old_videos 14 ;;
  print_now ;;
  channels <- download_channels_list_from_drive ;;
  match channels with
  | None => print "No channels found"
  | Some channels =>
      load_past_videos ;;
      for_each channels main_channel ;;
      dump_past_videos
  end.

End Program.

(** ** Relations between the state before and after a computation *)

(** [stable R m]: whatever [m] does, and whether it returns or raises, the
    state it leaves is related by [R] to the state it found. *)
Definition stable {A} (R : state -> state -> Prop) (m : M A) : Prop :=
  forall s, R s (snd (m s)).

(** The computation touches neither the history file nor the list in memory,
    and adds to the log only events of the class [P]. *)
Definition quiet (P : event -> Prop) (s s' : state) : Prop :=
  past_videos_json s' = past_videos_json s /\
  past_videos s' = past_videos s /\
  exists l, log s' = l ++ log s /\ Forall P l.

(** The log only grows. *)
Definition log_grows (s s' : state) : Prop :=
  exists l, log s' = l ++ log s.

(** The history list in memory only grows, at its end. *)
Definition history_grows (s s' : state) : Prop :=
  exists added, past_videos s' = past_videos s ++ added.

(** What the loop over the channels does to the state: the history file is
    left alone, the list in memory and the log grow. *)
Definition sync_rel (s s' : state) : Prop :=
  past_videos_json s' = past_videos_json s /\
  history_grows s s' /\ log_grows s s'.

(** Events of the retention sweep and of the catalogue loader. *)
Definition prelude_event (e : event) : Prop :=
  match e with
  | Print _ | PrintNow _ | DriveList _ | DriveDelete _ | DriveGetMedia _ =>
      True
  | _ => False
  end.

(** Events of the video resolver. *)
Definition resolver_event (e : event) : Prop :=
  match e with
  | ChannelsList _ | PlaylistItems _ _ => True
  | _ => False
  end.

(** Events of the transfer pipeline: stream resolution, download, upload,
    scratch removal. *)
Definition transfer_event (e : event) : bool :=
  match e with
  | Streams _ | StreamDownload _ _ | DriveCreate _ _ | OsRemove _ => true
  | _ => false
  end.

(** What the transfer of a video titled [t] logs after its first request. *)
Definition pipeline_event (t : string) (e : event) : Prop :=
  match e with
  | StreamDownload _ _ | DriveCreate _ _ | OsRemove _ => True
  | Print line => line = ("Downloaded: " ++ t)%string
  | _ => False
  end.

(** The line printed by the handlers of lines 203-207. *)
Definition error_line (e : event) : bool :=
  match e with
  | Print line => String.prefix "Error: " line
  | _ => false
  end.

(** ** Auxiliary readings of [main] *)

Section Readings.

Variable E : Env.

(** Lines 173-176: everything [main] does before it looks at the catalogue
    it obtained. *)
Definition prelude : M (option (list string)) :=
  (delete_old_videos E 14 ;;
   print_now E ;;
   download_channels_list_from_drive E)%m.

(** The state once line 182 has read the history list [h]. *)
Definition loaded (h : list string) (s : state) : state :=
  mkState (tick s) (drive s) (past_videos_json s) h
          (OpenRead "past_videos.json" :: log s).

(** [n] runs of the job, one after the other, each a new process. *)
Fixpoint runs (n : nat) (s : state) : state :=
  match n with
  | O => s
  | S k => runs k (snd (main E (restart s)))
  end.

End Readings.

(** [J] holds after when it held before. *)
Definition preserves (J : state -> Prop) (s s' : state) : Prop := J s -> J s'.

(** The record built from a playlist item at lines 105-108. *)
Definition video_of_item (it : playlist_item) : string * string :=
  (("https://www.youtube.com/watch?v=" ++ videoId it)%string, title it).

(** What the resolver hands back when it starts at tick [t], read off the
    two replies of the provider. *)
Definition resolution_at (E : Env) (t : nat) (channel_id : string)
    (last_n : nat) : resolved :=
  let failed (e : exn) :=
    if is_HttpError e
    then NoneAnd ("API Error: " ++ exn_str e)
    else NoneAnd ("An unexpected error occurred: " ++ exn_str e) in
  if (channel_id =? "")%string
  then NoneAnd "Could not extract channel identifier from URL"
  else
    match channels_list_reply E t channel_id with
    | inl e => failed e
    | inr [] => NoneAnd ("No channel found with ID: " ++ channel_id)
    | inr (uploads_playlist_id :: _) =>
        match playlist_items_reply E (S t) uploads_playlist_id last_n with
        | inl e => failed e
        | inr [] => NoneAnd "Channel has no videos"
        | inr items =>
            if (last_n <=? List.length items)%nat
            then Videos (map video_of_item (firstn last_n items))
            else failed (mkExn IndexError "list index out of range")
        end
    end.

(** The outcome of the transfer of the video [video_url], titled
    [video_title], when it starts at tick [t]: the first of its four steps
    to fail decides (stream resolution and selection, download, upload,
    removal of the scratch file). *)
Definition transfer_outcome (E : Env) (t : nat)
    (video_url video_title : string) : outcome unit :=
  let file_name := (video_title ++ ".mp4")%string in
  let file_path := os_path_join OUTPUT_DIR file_name in
  match streams_reply E t video_url with
  | inl e => Raise e
  | inr offered =>
      match select_stream offered with
      | None =>
          Raise (mkExn AttributeError
                   "'NoneType' object has no attribute 'download'")
      | Some st =>
          match stream_download_reply E (S t) st file_path with
          | Some e => Raise e
          | None =>
              match files_create_reply E (S (S t)) file_path file_name with
              | inl e => Raise e
              | inr _ =>
                  match os_remove_reply E (S (S (S t))) file_path with
                  | Some e => Raise e
                  | None => Ret tt
                  end
              end
          end
      end
  end.

(** How often the transfer pipeline was started for [url]: its stream
    requests in the log. *)
Definition is_Streams (url : string) (e : event) : bool :=
  match e with
  | Streams u => (u =? url)%string
  | _ => false
  end.

Definition transfer_count (url : string) (l : list event) : nat :=
  List.length (filter (is_Streams url) l).

(** The line that ends the inner [try] of a transfer that succeeded
    (line 202). *)
Definition uploaded_line (e : event) : bool :=
  match e with
  | Print line => String.prefix "Uploaded: " line
  | _ => false
  end.

(** The URL whose transfer is under way at the end of a log: that of the
    last stream request, unless a line Uploaded or Error came after it. *)
Fixpoint under_way (l : list event) : option string :=
  match l with
  | [] => None
  | Streams u :: _ => Some u
  | e :: older =>
      if (error_line e || uploaded_line e)%bool then None else under_way older
  end.

Definition under_way_of (url : string) (l : list event) : bool :=
  match under_way l with
  | Some u => (u =? url)%string
  | None => false
  end.

(** The failed transfers of [url]: the lines Error printed while a
    transfer of [url] was under way, those of the handler of line 203 at
    the end of a transfer of [url]. *)
Fixpoint failed_transfers (url : string) (l : list event) : nat :=
  match l with
  | [] => 0
  | e :: older =>
      (if (error_line e && under_way_of url older)%bool then 1 else 0)
      + failed_transfers url older
  end.

(** No transfer is under way, the failed transfers of a URL are among its
    transfers, and at most one transfer of it has not failed, none as
    long as the URL is not in the history list. *)
Definition counted (s : state) : Prop :=
  under_way (log s) = None /\
  forall url,
    failed_transfers url (log s) <= transfer_count url (log s) /\
    transfer_count url (log s)
    <= failed_transfers url (log s)
       + (if contains (past_videos s) url then 1 else 0).

(** An event that neither starts nor ends a transfer. *)
Definition neutral (e : event) : Prop :=
  error_line e = false /\ uploaded_line e = false /\
  forall u, e <> Streams u.

(** The history list is [h] followed by URLs that are pairwise distinct
    and not in [h]. *)
Definition appended_once (h : list string) (s : state) : Prop :=
  exists added,
    past_videos s = h ++ added /\ NoDup added /\
    forall u, In u added -> ~ In u h.

(** No file is added to the folder. *)
Definition drive_shrinks (s s' : state) : Prop :=
  forall f, In f (drive s') -> In f (drive s).

(** The folder holds no file named channels.json. *)
Definition no_catalog (s : state) : Prop :=
  forall f, In f (drive s) -> file_name f <> "channels.json".

(** An event that is no step of the transfer pipeline. *)
Definition no_transfer (e : event) : Prop := transfer_event e = false.

(** ** Sample worlds

    Times are counted in microseconds from midnight of 2024-01-01; the
    sample clock stands at midnight of 2024-01-15, fourteen days later. *)

Definition day : Z := 86400 * 1000000.

Definition sample_fromisoformat (d : string) : option Z :=
  if (d =? "2024-01-01T00:00:00.000")%string then Some 0%Z
  else if (d =? "2023-12-31T23:59:59.000")%string then Some (-1000000)%Z
  else if (d =? "2024-01-10T00:00:00.000")%string then Some (9 * day)%Z
  else if (d =? "2024-01-15T00:00:00.000")%string then Some (14 * day)%Z
  else None.

Definition url_A : string := "https://www.youtube.com/watch?v=A".
Definition url_B : string := "https://www.youtube.com/watch?v=B".
Definition url_C : string := "https://www.youtube.com/watch?v=C".

Definition sample_items : list playlist_item :=
  [mkItem "A" "a"; mkItem "B" "b"; mkItem "C" "c"].

Definition stream_360p : stream := mkStream 18 true "mp4" (Some "360p").
Definition stream_480p : stream := mkStream 135 true "mp4" (Some "480p").
Definition stream_720p : stream := mkStream 22 true "mp4" (Some "720p").
Definition stream_1080p_video_only : stream :=
  mkStream 137 false "mp4" (Some "1080p").

(** A progressive mp4 stream whose itag the library has no profile of. *)
Definition stream_unknown_itag : stream := mkStream 500 true "mp4" None.

Definition sample_streams : list stream :=
  [stream_720p; stream_1080p_video_only; stream_360p; stream_480p].

(** The channel UC1 exists and has three uploads, no other channel
    exists; the catalogue, the answer to a stream request and the error
    of an upload, if any, are left open. *)
Definition sample_env (catalogue : list string) (streams : exn + list stream)
    (upload_error : option exn) : Env :=
  mkEnv (fun _ => 14 * day)%Z sample_fromisoformat
        (fun _ => None) (fun _ _ => None)
        (fun _ _ => ([50; 100], inr catalogue))
        (fun t _ _ =>
           match upload_error with
           | Some e => inl e
           | None =>
               inr (("v" ++ str_of_nat t)%string, "2024-01-15T00:00:00.000Z")
           end)
        (fun _ c => if (c =? "UC1")%string then inr ["UU1"] else inr [])
        (fun _ _ _ => inr sample_items)
        (fun _ _ => streams)
        (fun _ _ _ => None)
        (fun _ _ => None).

Definition env_ok : Env :=
  sample_env ["UC0"; "UC1"] (inr sample_streams) None.

Definition env_upload_fails : Env :=
  sample_env ["UC0"; "UC1"] (inr sample_streams)
             (Some (mkExn HttpError "storage quota exceeded")).

Definition env_unavailable_twice : Env :=
  sample_env ["UC1"; "UC1"] (inl (mkExn OtherException "video unavailable"))
             None.

Definition file_at_boundary : drive_file :=
  mkFile "f1" "kept.mp4" "2024-01-01T00:00:00.000Z".

Definition file_one_second_older : drive_file :=
  mkFile "f2" "old.mp4" "2023-12-31T23:59:59.000Z".

Definition catalogue_file : drive_file :=
  mkFile "f3" "channels.json" "2024-01-10T00:00:00.000Z".

Definition stale_catalogue_file : drive_file :=
  mkFile "f4" "channels.json" "2023-12-31T23:59:59.000Z".

Definition sample_state : state :=
  mkState 0 [file_at_boundary; file_one_second_older; catalogue_file]
          (Some [url_A]) [] [].

Definition stale_state : state :=
  mkState 0 [file_at_boundary; stale_catalogue_file] (Some [url_A]) [] [].

Definition state_without_catalogue : state :=
  mkState 0 [file_at_boundary] (Some [url_A]) [] [].

(** The URLs for which the transfer pipeline was started, newest first. *)
Definition started (l : list event) : list string :=
  flat_map (fun e => match e with Streams u => [u] | _ => [] end) l.

(** Answers of the environment are only consumed. *)
Definition tick_grows (s s' : state) : Prop := tick s <= tick s'.

(** ** Further readings, for the properties beyond the claims *)

(** Events of the retention sweep alone. *)
Definition sweep_event (e : event) : Prop :=
  match e with
  | Print _ | DriveList None | DriveDelete _ => True
  | _ => False
  end.

(** Every file of the folder after was there before, or is named like an
    upload of line 194. *)
Definition adds_only_mp4 (s s' : state) : Prop :=
  forall f,
    In f (drive s') ->
    In f (drive s) \/ exists t, file_name f = (t ++ ".mp4")%string.

(** A file stays in the folder as long as no delete request names it. *)
Definition keeps_undeleted (s s' : state) : Prop :=
  log_grows s s' /\
  forall f,
    In f (drive s) -> ~ In (DriveDelete (file_id f)) (log s') ->
    In f (drive s').

(** The uploads requested, counted in the log. *)
Definition is_DriveCreate (e : event) : bool :=
  match e with
  | DriveCreate _ _ => true
  | _ => false
  end.

Definition upload_count (l : list event) : nat :=
  List.length (filter is_DriveCreate l).

(** The lines of line 153, newest first, for the chunks of a download. *)
Definition progress_lines (chunks : list nat) : list event :=
  rev (map (fun percent =>
              Print ("Download " ++ str_of_nat percent ++ "%.")) chunks).

(** Sample worlds with one reply changed. *)
Definition with_files_delete_reply (r : nat -> string -> option exn)
    (E : Env) : Env :=
  mkEnv (clock E) (fromisoformat E) (files_list_reply E) r
        (get_media_reply E) (files_create_reply E) (channels_list_reply E)
        (playlist_items_reply E) (streams_reply E)
        (stream_download_reply E) (os_remove_reply E).

Definition with_playlist_items_reply
    (r : nat -> string -> nat -> exn + list playlist_item) (E : Env) : Env :=
  mkEnv (clock E) (fromisoformat E) (files_list_reply E)
        (files_delete_reply E) (get_media_reply E) (files_create_reply E)
        (channels_list_reply E) r (streams_reply E)
        (stream_download_reply E) (os_remove_reply E).

Definition with_channels_list_reply
    (r : nat -> string -> exn + list string) (E : Env) : Env :=
  mkEnv (clock E) (fromisoformat E) (files_list_reply E)
        (files_delete_reply E) (get_media_reply E) (files_create_reply E)
        r (playlist_items_reply E) (streams_reply E)
        (stream_download_reply E) (os_remove_reply E).

Definition with_os_remove_reply (r : nat -> string -> option exn)
    (E : Env) : Env :=
  mkEnv (clock E) (fromisoformat E) (files_list_reply E)
        (files_delete_reply E) (get_media_reply E) (files_create_reply E)
        (channels_list_reply E) (playlist_items_reply E) (streams_reply E)
        (stream_download_reply E) r.

Definition env_delete_refused : Env :=
  with_files_delete_reply
    (fun _ _ => Some (mkExn HttpError "insufficient permissions")) env_ok.

Definition env_delete_times_out : Env :=
  with_files_delete_reply
    (fun _ _ => Some (mkExn OtherException "timed out")) env_ok.

Definition env_two_uploads_only : Env :=
  with_playlist_items_reply
    (fun _ _ _ => inr [mkItem "A" "a"; mkItem "B" "b"]) env_ok.

Definition env_quota_exceeded : Env :=
  with_channels_list_reply
    (fun _ _ => inl (mkExn HttpError "quotaExceeded")) env_ok.

Definition env_video_only : Env :=
  sample_env ["UC1"] (inr [stream_1080p_video_only]) None.

Definition env_scratch_locked : Env :=
  with_os_remove_reply
    (fun _ _ => Some (mkExn OtherException "file in use")) env_ok.

Definition undated_file : drive_file := mkFile "f5" "notes.txt" "yesterday".

Definition second_catalogue_file : drive_file :=
  mkFile "f6" "channels.json" "2024-01-10T00:00:00.000Z".

Definition state_without_history : state :=
  mkState 0 [file_at_boundary; catalogue_file] None [] [].


Definition undated_state : state :=
  mkState 0 [file_at_boundary; undated_file; catalogue_file]
          (Some [url_A]) [] [].

(** The stale catalogue is listed after a file whose creation time does
    not parse. *)
Definition undated_before_catalogue_state : state :=
  mkState 0 [undated_file; stale_catalogue_file] (Some [url_A]) [] [].

Definition two_catalogues_state : state :=
  mkState 0 [catalogue_file; second_catalogue_file] (Some [url_A]) [] [].

(** In the middle of a run: the history list is loaded. *)
Definition state_in_run : state := mkState 0 [] (Some [url_A]) [url_A] [].


(** * Properties *)

Local Open Scope nat_scope.

(** ** Composition of stable computations *)

Section Combinators.

Context {R : state -> state -> Prop} `{!PreOrder R}.

Lemma stable_ret {A} (a : A) : stable R (ret a).
Proof. intros s. simpl. reflexivity. Qed.

Lemma stable_raise {A} (e : exn) : stable R (@raise A e).
Proof. intros s. simpl. reflexivity. Qed.

Lemma stable_bind {A B} (m : M A) (k : A -> M B) :
  stable R m -> (forall a, stable R (k a)) -> stable R (bind m k).
Proof.
  intros Hm Hk s. unfold bind. specialize (Hm s).
  destruct (m s) as [[a | e] s1]; simpl in *; auto.
  etransitivity; [exact Hm | apply Hk].
Qed.

Lemma stable_try_except {A} (m : M A) (h : exn -> M A) :
  stable R m -> (forall e, stable R (h e)) -> stable R (try_except m h).
Proof.
  intros Hm Hh s. unfold try_except. specialize (Hm s).
  destruct (m s) as [[a | e] s1]; simpl in *; auto.
  etransitivity; [exact Hm | apply Hh].
Qed.

Lemma stable_for_each {A} (l : list A) (body : A -> M unit) :
  (forall x, In x l -> stable R (body x)) -> stable R (for_each l body).
Proof.
  induction l as [| x rest IH]; intros Hb; simpl.
  - apply stable_ret.
  - apply stable_bind.
    + apply Hb. now left.
    + intros _. apply IH. intros y Hy. apply Hb. now right.
Qed.

Lemma stable_of_option (r : option exn) : stable R (of_option r).
Proof. destruct r; [apply stable_raise | apply stable_ret]. Qed.

Lemma stable_of_sum {A} (r : exn + A) : stable R (of_sum r).
Proof. destruct r; [apply stable_raise | apply stable_ret]. Qed.

Lemma stable_get_drive : stable R get_drive.
Proof. intros s. simpl. reflexivity. Qed.

Lemma stable_get_past_videos : stable R get_past_videos.
Proof. intros s. simpl. reflexivity. Qed.

Lemma stable_extract_videos (items : list playlist_item) (i count : nat) :
  stable R (extract_videos items i count).
Proof.
  revert i. induction count as [| count IH]; intros i; simpl.
  - apply stable_ret.
  - destruct (nth_error items i).
    + apply stable_bind; [apply IH | intros; apply stable_ret].
    + apply stable_raise.
Qed.

End Combinators.

(** Decompose a computation along its binds, handlers, loops and case
    distinctions, down to the writes to the state. *)
Create HintDb prog.
#[local] Hint Unfold print datetime_now files_list files_delete
  get_media_json files_create channels_list playlist_items yt_streams
  stream_download os_remove is_older_than_days delete_video_from_drive
  delete_old_videos_item delete_old_videos get_latest_video_url
  download_video download_channels_list_from_drive upload_file
  print_now : prog.

Ltac stable_step :=
  first
    [ progress autounfold with prog
    | apply stable_ret | apply stable_raise
    | apply stable_of_option | apply stable_of_sum
    | apply stable_get_drive | apply stable_get_past_videos
    | apply stable_extract_videos
    | apply stable_for_each; intros ? _
    | apply stable_bind; [ | intros ? ]
    | apply stable_try_except; [ | intros ? ]
    | match goal with
      | |- stable _ (match ?x with _ => _ end) => destruct x
      end ].

Ltac stable_split := repeat stable_step.

#[local] Instance quiet_preorder (P : event -> Prop) : PreOrder (quiet P).
Proof.
  split.
  - intros s. repeat split. exists []. split; [reflexivity | constructor].
  - intros a b c (Hj1 & Hp1 & l1 & Hl1 & Hf1) (Hj2 & Hp2 & l2 & Hl2 & Hf2).
    repeat split; try congruence.
    exists (l2 ++ l1). split.
    + rewrite Hl2, Hl1. apply app_assoc.
    + apply Forall_app. split; assumption.
Qed.

#[local] Instance log_grows_preorder : PreOrder log_grows.
Proof.
  split.
  - intros s. now exists [].
  - intros a b c [l1 H1] [l2 H2]. exists (l2 ++ l1).
    rewrite H2, H1. apply app_assoc.
Qed.

#[local] Instance history_grows_preorder : PreOrder history_grows.
Proof.
  split.
  - intros s. exists []. now rewrite app_nil_r.
  - intros a b c [l1 H1] [l2 H2]. exists (l1 ++ l2).
    rewrite H2, H1. symmetry. apply app_assoc.
Qed.

Lemma quiet_emit (P : event -> Prop) (e : event) :
  P e -> stable (quiet P) (emit e).
Proof.
  intros He s. repeat split. exists [e]. split; [reflexivity | auto].
Qed.

Lemma quiet_next_tick (P : event -> Prop) : stable (quiet P) next_tick.
Proof.
  intros s. repeat split. exists []. split; [reflexivity | constructor].
Qed.

Lemma quiet_modify_drive (P : event -> Prop)
    (f : list drive_file -> list drive_file) :
  stable (quiet P) (modify_drive f).
Proof.
  intros s. repeat split. exists []. split; [reflexivity | constructor].
Qed.

Lemma quiet_weaken (P Q : event -> Prop) (s s' : state) :
  (forall e, P e -> Q e) -> quiet P s s' -> quiet Q s s'.
Proof.
  intros HPQ (Hj & Hp & l & Hl & Hf). repeat split; auto.
  exists l. split; auto. eapply Forall_impl; eauto.
Qed.

Ltac quiet_solve :=
  stable_split;
  first [ apply quiet_next_tick | apply quiet_modify_drive
        | apply quiet_emit; exact I ].

(** ** Stream selection *)

Lemma insert_by_In {A} (le : A -> A -> bool) (x y : A) (l : list A) :
  In y (insert_by le x l) <-> y = x \/ In y l.
Proof.
  induction l as [| h rest IH]; simpl.
  - intuition.
  - destruct (le x h); simpl; rewrite ?IH; intuition.
Qed.

Lemma sorted_by_In {A} (le : A -> A -> bool) (y : A) (l : list A) :
  In y (sorted_by le l) <-> In y l.
Proof.
  induction l as [| h rest IH]; simpl.
  - tauto.
  - fold (sorted_by le rest). rewrite insert_by_In, IH. intuition.
Qed.

(** The head of a list sorted by a numeric key carries the least key. *)
Lemma sorted_by_hd_least {A} (key : A -> nat) (l : list A) (h : A) :
  first (sorted_by (fun a b => key a <=? key b) l) = Some h ->
  forall y, In y l -> key h <= key y.
Proof.
  revert h. induction l as [| x rest IH]; intros h Hh y Hy.
  - destruct Hy.
  - simpl in Hh. fold (sorted_by (fun a b => key a <=? key b) rest) in Hh.
    destruct (sorted_by (fun a b => key a <=? key b) rest) as [| h' tl] eqn:Hs.
    + simpl in Hh. injection Hh as <-.
      destruct Hy as [<- | Hy]; [lia |].
      apply (sorted_by_In (fun a b => key a <=? key b)) in Hy.
      rewrite Hs in Hy. destruct Hy.
    + specialize (IH h' eq_refl).
      simpl in Hh. destruct (key x <=? key h') eqn:Hle; simpl in Hh;
        injection Hh as <-.
      * apply Nat.leb_le in Hle.
        destruct Hy as [<- | Hy]; [lia |].
        specialize (IH y Hy). lia.
      * apply Nat.leb_gt in Hle.
        destruct Hy as [<- | Hy]; [lia | auto].
Qed.

Lemma order_by_resolution_In (y : stream) (l : list stream) :
  In y (order_by_resolution l) <-> In y (filter has_resolution l).
Proof.
  unfold order_by_resolution. cbv zeta.
  destruct (forallb _ (filter has_resolution l)); apply sorted_by_In.
Qed.

Lemma first_In {A} (l : list A) (x : A) : first l = Some x -> In x l.
Proof. destruct l; simpl; [discriminate | intros [= ->]; now left]. Qed.

Lemma first_None {A} (l : list A) : first l = None -> l = [].
Proof. destruct l; simpl; [reflexivity | discriminate]. Qed.

Lemma res_480p_spec (s : stream) :
  res_480p s = true <-> resolution s = Some "480p".
Proof.
  unfold res_480p. destruct (resolution s) as [r |].
  - rewrite String.eqb_eq. split; congruence.
  - split; discriminate.
Qed.

Lemma order_by_resolution_nil (l : list stream) :
  order_by_resolution l = [] <-> filter has_resolution l = [].
Proof.
  split; intros H.
  - destruct (filter has_resolution l) as [| x rest] eqn:Hl; [reflexivity |].
    assert (Hx : In x (order_by_resolution l))
      by (apply order_by_resolution_In; rewrite Hl; now left).
    rewrite H in Hx. destruct Hx.
  - destruct (order_by_resolution l) as [| x rest] eqn:Hl; [reflexivity |].
    assert (Hx : In x (filter has_resolution l))
      by (apply order_by_resolution_In; rewrite Hl; now left).
    rewrite H in Hx. destruct Hx.
Qed.

(** C6, amended: among the progressive mp4 streams offered that carry a
    resolution label, [download_video] takes one labelled exactly 480p when
    there is one, and otherwise one of least resolution (the head of the
    ascending order, which holds the labelled streams only); when none of
    them carries a label, nothing is selected. *)
Theorem select_stream_policy (offered : list stream) :
  let eligible := filter progressive_mp4 offered in
  let labelled := filter has_resolution eligible in
  (labelled <> [] ->
   exists st,
     select_stream offered = Some st /\ In st labelled /\
     ((exists s, In s eligible /\ resolution s = Some "480p") ->
      resolution st = Some "480p") /\
     ((forall s, In s eligible -> resolution s <> Some "480p") ->
      (forall s, In s labelled -> int_of_digits (label s) <> None) ->
      select_stream offered = first (order_by_resolution eligible) /\
      forall s, In s labelled -> res_key st <= res_key s)) /\
  (labelled = [] -> select_stream offered = None).
Proof.
  intros eligible labelled. split.
  - intros Hne. unfold select_stream. fold eligible.
    destruct (first (filter res_480p (order_by_resolution eligible)))
      as [st |] eqn:H480.
    + apply first_In, filter_In in H480. destruct H480 as [Hin Hres].
      apply (proj1 (order_by_resolution_In st eligible)) in Hin.
      apply res_480p_spec in Hres.
      exists st. split; [reflexivity |]. split; [assumption |].
      split; [auto |].
      intros Hnone _. exfalso. apply (Hnone st); [| exact Hres].
      apply filter_In in Hin. tauto.
    + apply first_None in H480.
      destruct (first (order_by_resolution eligible)) as [st |] eqn:Hfirst.
      * pose proof (first_In _ _ Hfirst) as Hin.
        apply (proj1 (order_by_resolution_In st eligible)) in Hin.
        exists st. split; [reflexivity |]. split; [assumption |]. split.
        -- intros (s & Hs & Hres). exfalso.
           assert (Hf : In s (filter res_480p (order_by_resolution eligible))).
           { apply filter_In. split.
             - apply order_by_resolution_In, filter_In. split; [exact Hs |].
               unfold has_resolution. now rewrite Hres.
             - now apply res_480p_spec. }
           rewrite H480 in Hf. destruct Hf.
        -- intros _ Hdigits. split; [reflexivity |]. intros s Hs.
           unfold order_by_resolution in Hfirst. cbv zeta in Hfirst.
           fold labelled in Hfirst.
           replace (forallb _ labelled) with true in Hfirst.
           ++ exact (sorted_by_hd_least res_key labelled st Hfirst s Hs).
           ++ symmetry. apply forallb_forall. intros x Hx.
              specialize (Hdigits x Hx).
              destruct (int_of_digits (label x)); congruence.
      * apply first_None, order_by_resolution_nil in Hfirst.
        exfalso. exact (Hne Hfirst).
  - intros Hnil. unfold select_stream. fold eligible.
    assert (Hord : order_by_resolution eligible = [])
      by now apply order_by_resolution_nil.
    rewrite Hord. reflexivity.
Qed.

#[local] Arguments String.append : simpl never.

(** Run a computation symbolically: unfold the monad and split on what the
    collaborators answer, innermost question first. *)
Ltac exec_unfold :=
  autounfold with prog;
  unfold bind, try_except, next_tick, emit, ret, raise, modify_drive,
    get_drive,
    get_past_videos, set_past_videos, of_option, of_sum;
  simpl.

Ltac exec_step :=
  match goal with
  | |- context [match ?x with _ => _ end] =>
      lazymatch x with
      | context [match _ with _ => _ end] => fail
      | _ => destruct x eqn:?
      end
  end.

Ltac exec := exec_unfold; repeat (exec_step; simpl).

Ltac prefix_of t s :=
  match t with
  | s => constr:(@nil event)
  | ?e :: ?r => let p := prefix_of r s in constr:(e :: p)
  end.

Ltac exists_prefix :=
  match goal with
  | |- exists l, ?t = l ++ ?s /\ _ =>
      let p := prefix_of t s in exists p; split; [reflexivity |]
  | |- exists l, ?t = l ++ ?s =>
      let p := prefix_of t s in exists p; reflexivity
  end.

Ltac pipeline_log :=
  match goal with
  | |- exists l, _ :: ?t = _ :: l ++ ?tail /\ _ =>
      let p := prefix_of t tail in
      exists p; split; [reflexivity | repeat constructor]
  end.

Section Facts.

Variable E : Env.

(** ** What the sweep, the catalogue loader and the resolver leave alone *)

Lemma delete_old_videos_quiet (days : Z) :
  stable (quiet prelude_event) (delete_old_videos E days).
Proof. quiet_solve. Qed.

Lemma print_now_quiet : stable (quiet prelude_event) (print_now E).
Proof. quiet_solve. Qed.

Lemma download_channels_list_quiet :
  stable (quiet prelude_event) (download_channels_list_from_drive E).
Proof. quiet_solve. Qed.

Lemma get_latest_video_url_quiet (channel_id : string) (last_n : nat) :
  stable (quiet resolver_event) (get_latest_video_url E channel_id last_n).
Proof. quiet_solve. Qed.

(** ** The retention sweep *)

(** One file of the listing: the request is issued exactly when the age
    read at this tick is strictly greater than the threshold. *)
Lemma delete_old_videos_item_boundary (days : Z) (item : drive_file)
    (created : Z)
    (s : state) :
  fromisoformat E (drop_last (file_createdTime item)) = Some created ->
  let now := clock E (tick s) in
  let s' := snd (delete_old_videos_item E days item s) in
  fst (is_older_than_days E (file_createdTime item) days s)
    = Ret (created <? now - timedelta_days days)%Z /\
  exists l,
    log s' = l ++ log s /\
    (In (DriveDelete (file_id item)) l <->
     (now - created > timedelta_days days)%Z) /\
    ((now - created = timedelta_days days)%Z ->
     l = [] /\ drive s' = drive s) /\
    ((now - created = timedelta_days days + 1000000)%Z ->
     In (DriveDelete (file_id item)) l).
Proof.
  intros Hparse now s'. subst s'. split.
  { unfold is_older_than_days. rewrite Hparse. reflexivity. }
  unfold delete_old_videos_item, is_older_than_days. rewrite Hparse.
  exec_unfold. fold now.
  generalize (timedelta_days days). intros td.
  destruct (created <? now - td)%Z eqn:Hcmp; simpl.
  - apply Z.ltb_lt in Hcmp.
    repeat (exec_step; simpl); exists_prefix;
      (split; [split; [lia | simpl; auto] | split; [lia | simpl; auto]]).
  - apply Z.ltb_ge in Hcmp.
    exists []. split; [reflexivity |].
    split; [split; [intros [] | lia] | split; [auto | lia]].
Qed.

(** ** One video *)

Lemma contains_In (l : list string) (x : string) :
  contains l x = true <-> In x l.
Proof.
  unfold contains. rewrite existsb_exists. split.
  - intros (y & Hy & Heq). apply String.eqb_eq in Heq. now subst.
  - intros Hx. exists x. split; [assumption | apply String.eqb_refl].
Qed.

Lemma contains_not_In (l : list string) (x : string) :
  contains l x = false <-> ~ In x l.
Proof.
  rewrite <- contains_In. destruct (contains l x); split; congruence.
Qed.

(** The three ways through lines 190-204: the video is skipped, its
    transfer fails, or it is transferred and recorded. *)
Lemma main_video_cases (u t : string) (s : state) :
  let s' := snd (main_video E (u, t) s) in
  fst (main_video E (u, t) s) = Ret tt /\
  past_videos_json s' = past_videos_json s /\
  ((In u (past_videos s) /\ past_videos s' = past_videos s /\
    log s' = Print ("Skipping: " ++ t) :: log s) \/
   (~ In u (past_videos s) /\ past_videos s' = past_videos s /\
    exists e l,
      log s' = Print ("Error: " ++ exn_str e) :: l ++ Streams u :: log s /\
      Forall (pipeline_event t) l) \/
   (~ In u (past_videos s) /\ past_videos s' = past_videos s ++ [u] /\
    exists l,
      log s' = Print ("Uploaded: " ++ t) :: l ++ Streams u :: log s /\
      Forall (pipeline_event t) l)).
Proof.
  unfold main_video, main_video_try. exec_unfold.
  destruct (contains (past_videos s) u) eqn:Hin; simpl.
  - apply contains_In in Hin. auto 10.
  - apply contains_not_In in Hin.
    repeat (exec_step; simpl);
      (split; [reflexivity |]; split; [reflexivity |]; right);
      first
        [ left; split; [assumption |]; split; [reflexivity |];
          eexists; pipeline_log
        | left; split; [assumption |]; split; [reflexivity |];
          exists (mkExn AttributeError
                    "'NoneType' object has no attribute 'download'");
          pipeline_log
        | right; split; [assumption |]; split; [reflexivity |];
          pipeline_log ].
Qed.

(** ** Loops *)

Lemma for_each_returns {A} (body : A -> M unit) (l : list A) :
  (forall x s, fst (body x s) = Ret tt) ->
  forall s, fst (for_each l body s) = Ret tt.
Proof.
  intros Hb. induction l as [| x rest IH]; intros s; simpl; [reflexivity |].
  unfold bind. specialize (Hb x s).
  destruct (body x s) as [[[] | e] s1]; simpl in *; [apply IH | discriminate].
Qed.

Lemma for_each_cons {A} (body : A -> M unit) (x : A) (rest : list A)
    (s : state) :
  fst (body x s) = Ret tt ->
  for_each (x :: rest) body s = for_each rest body (snd (body x s)).
Proof.
  simpl. unfold bind.
  destruct (body x s) as [[[] | e] s1]; simpl; [reflexivity | discriminate].
Qed.

Lemma for_each_app {A} (body : A -> M unit) (l1 l2 : list A) :
  (forall x s, fst (body x s) = Ret tt) ->
  forall s,
    for_each (l1 ++ l2) body s = for_each l2 body (snd (for_each l1 body s)).
Proof.
  intros Hb. induction l1 as [| x rest IH]; intros s.
  - reflexivity.
  - rewrite <- app_comm_cons, !for_each_cons by apply Hb. apply IH.
Qed.

Lemma main_video_returns (v : string * string) (s : state) :
  fst (main_video E v s) = Ret tt.
Proof. destruct v as [u t]. apply main_video_cases. Qed.

Lemma get_latest_video_url_returns (c : string) (n : nat) (s : state) :
  exists r, fst (get_latest_video_url E c n s) = Ret r.
Proof.
  unfold get_latest_video_url, try_except.
  destruct (c =? "")%string; simpl; [eauto |].
  match goal with |- context [match ?m s with _ => _ end] =>
    destruct (m s) as [[r | e] s1] end; simpl; [eauto |].
  destruct (is_HttpError e); simpl; eauto.
Qed.

Lemma main_channel_returns (c : string) (s : state) :
  fst (main_channel E c s) = Ret tt.
Proof.
  unfold main_channel, try_except.
  destruct (main_channel_try E c s) as [[[] | e] s1]; reflexivity.
Qed.

(** What the body of the channel loop comes to, by what the resolver
    handed back. *)
Lemma main_channel_cases (c : string) (s : state) :
  let r := get_latest_video_url E c LAST_VIDEO_N s in
  match fst r with
  | Ret (Videos l) => main_channel E c s = for_each l (main_video E) (snd r)
  | Ret (NoneAnd _) =>
      main_channel E c s =
      print ("Error: " ++ "cannot unpack non-iterable NoneType object") (snd r)
  | Raise _ => False
  end.
Proof.
  intros r. subst r.
  destruct (get_latest_video_url_returns c LAST_VIDEO_N s) as [r Hr].
  unfold main_channel, main_channel_try, try_except, bind.
  destruct (get_latest_video_url E c LAST_VIDEO_N s) as [o s1].
  simpl in Hr. subst o. simpl.
  destruct r as [l | msg]; simpl; [| reflexivity].
  destruct l as [| v rest]; simpl falsy; cbv iota; [reflexivity |].
  pose proof (for_each_returns (main_video E) (v :: rest)
                main_video_returns s1) as Hret.
  destruct (for_each (v :: rest) (main_video E) s1) as [[[] | e] s2];
    simpl in Hret; [reflexivity | discriminate].
Qed.

(** ** The history list and the log only grow *)

#[local] Instance sync_rel_preorder : PreOrder sync_rel.
Proof.
  split.
  - intros s. split; [reflexivity | split; reflexivity].
  - intros a b c (Hj1 & Hh1 & Hl1) (Hj2 & Hh2 & Hl2).
    split; [congruence | split; etransitivity; eassumption].
Qed.

Lemma quiet_sync_rel (P : event -> Prop) (s s' : state) :
  quiet P s s' -> sync_rel s s'.
Proof.
  intros (Hj & Hp & l & Hl & _). split; [assumption | split].
  - exists []. now rewrite app_nil_r.
  - now exists l.
Qed.

Lemma main_video_sync (v : string * string) :
  stable sync_rel (main_video E v).
Proof.
  intros s. destruct v as [u t].
  destruct (main_video_cases u t s) as (_ & Hj & Hcases).
  split; [assumption |].
  destruct Hcases as [(_ & Hp & Hl) | [(_ & Hp & e & l & Hl & _)
                                      | (_ & Hp & l & Hl & _)]];
    unfold history_grows, log_grows; rewrite Hp, Hl; split.
  - exists []. now rewrite app_nil_r.
  - now exists [Print ("Skipping: " ++ t)].
  - exists []. now rewrite app_nil_r.
  - exists (Print ("Error: " ++ exn_str e) :: l ++ [Streams u]).
    simpl. now rewrite <- app_assoc.
  - now exists [u].
  - exists (Print ("Uploaded: " ++ t) :: l ++ [Streams u]).
    simpl. now rewrite <- app_assoc.
Qed.

Lemma main_channel_sync (c : string) : stable sync_rel (main_channel E c).
Proof.
  intros s. pose proof (main_channel_cases c s) as Hc. simpl in Hc.
  pose proof (get_latest_video_url_quiet c LAST_VIDEO_N s) as Hq.
  apply quiet_sync_rel in Hq.
  destruct (get_latest_video_url E c LAST_VIDEO_N s) as [[[l | msg] | e] s1];
    simpl in *; [| | contradiction]; rewrite Hc.
  - etransitivity; [exact Hq |].
    apply (stable_for_each l (main_video E)).
    intros v _. apply main_video_sync.
  - etransitivity; [exact Hq |].
    split; [reflexivity | split].
    + exists []. now rewrite app_nil_r.
    + now eexists [_].
Qed.

Lemma main_channels_sync (channels : list string) :
  stable sync_rel (for_each channels (main_channel E)).
Proof. apply stable_for_each. intros c _. apply main_channel_sync. Qed.

(** ** The shape of a run *)

Lemma prelude_quiet : stable (quiet prelude_event) (prelude E).
Proof.
  unfold prelude.
  apply stable_bind; [apply delete_old_videos_quiet | intros _].
  apply stable_bind; [apply print_now_quiet | intros _].
  apply download_channels_list_quiet.
Qed.

Lemma main_cases (s : state) :
  let s1 := snd (prelude E s) in
  match fst (prelude E s) with
  | Raise e => main E s = (Raise e, s1)
  | Ret None => main E s = print "No channels found" s1
  | Ret (Some channels) =>
      match past_videos_json s1 with
      | None =>
          exists e,
            main E s = (Raise e, snd (emit (OpenRead "past_videos.json") s1))
      | Some h =>
          main E s =
          dump_past_videos
            (snd (for_each channels (main_channel E) (loaded h s1)))
      end
  end.
Proof.
  unfold main, prelude, bind.
  destruct (delete_old_videos E 14 s) as [[[] | e] s0]; cbn [fst snd];
    [| reflexivity].
  destruct (print_now E s0) as [[[] | e] s0']; cbn [fst snd]; [| reflexivity].
  destruct (download_channels_list_from_drive E s0') as [[[channels |] | e] s1];
    cbn [fst snd]; try reflexivity.
  unfold load_past_videos, bind, emit, set_past_videos. simpl.
  destruct (past_videos_json s1) as [h |] eqn:Hfile; simpl; [| eauto].
  match goal with
  | |- context [for_each channels (main_channel E) ?st] =>
      replace st with (loaded h s1)
        by (unfold loaded; rewrite Hfile; reflexivity)
  end.
  pose proof (for_each_returns (main_channel E) channels
                main_channel_returns (loaded h s1)) as Hret.
  destruct (for_each channels (main_channel E) (loaded h s1))
    as [[[] | e] s2]; simpl in Hret; [reflexivity | discriminate].
Qed.

#[local] Instance preserves_preorder (J : state -> Prop) :
  PreOrder (preserves J).
Proof. split; unfold preserves; [intros s | intros a b c]; auto. Qed.

(** An invariant of the loop over the channels: it is enough that the
    resolver, the line of the outer handler and the body of the loop over
    the videos keep it. *)
Lemma channels_invariant (J : state -> Prop) :
  (forall s s', quiet resolver_event s s' -> J s -> J s') ->
  (forall s line, J s -> J (snd (print line s))) ->
  (forall v, stable (preserves J) (main_video E v)) ->
  forall channels, stable (preserves J) (for_each channels (main_channel E)).
Proof.
  intros Hres Hprint Hvideo channels.
  apply stable_for_each. intros c _ s HJ.
  pose proof (main_channel_cases c s) as Hc. simpl in Hc.
  pose proof (get_latest_video_url_quiet c LAST_VIDEO_N s) as Hq.
  apply Hres in Hq; [| assumption].
  destruct (get_latest_video_url E c LAST_VIDEO_N s) as [[[l | msg] | e] s1];
    simpl in *; [| | contradiction]; rewrite Hc.
  - refine (stable_for_each (R := preserves J) l (main_video E) _ s1 Hq).
    intros v _. apply Hvideo.
  - apply Hprint. assumption.
Qed.

(** ** Deduplication *)

Lemma pipeline_event_not_Streams (t u : string) (l : list event) :
  Forall (pipeline_event t) l -> ~ In (Streams u) l.
Proof.
  intros Hl Hin. rewrite Forall_forall in Hl. apply (Hl _ Hin).
Qed.

(** C1: a URL of the history list read at the start of the run is never
    handed to the transfer pipeline during that run (the pipeline opens
    with the stream request for the URL); the video is skipped on the
    membership test, an exact comparison of strings, before any step of
    the transfer. *)
Theorem history_url_never_transferred (s : state) (h : list string)
    (url : string) :
  past_videos_json s = Some h ->
  In url h ->
  ~ In (Streams url) (log (snd (main E (restart s)))) /\
  forall s1 t,
    In url (past_videos s1) ->
    main_video E (url, t) s1 = print ("Skipping: " ++ t) s1.
Proof.
  intros Hfile Hin. split.
  - pose proof (main_cases (restart s)) as Hm. simpl in Hm.
    destruct (prelude_quiet (restart s)) as (Hj & _ & l & Hl & Hquiet).
    simpl in Hj, Hl. rewrite app_nil_r in Hl.
    assert (Hpre : ~ In (Streams url) (log (snd (prelude E (restart s))))).
    { rewrite Hl. intros Hs. rewrite Forall_forall in Hquiet.
      apply (Hquiet _ Hs). }
    destruct (prelude E (restart s)) as [[[channels |] | e] s1]; simpl in *.
    + rewrite Hj, Hfile in Hm. rewrite Hm. simpl.
      intros [Hw | Hs]; [discriminate |]. revert Hs.
      set (J := fun st => In url (past_videos st) /\
                          ~ In (Streams url) (log st)).
      assert (HJ : J (snd (for_each channels (main_channel E) (loaded h s1)))).
      { refine (channels_invariant J _ _ _ channels (loaded h s1) _).
        - intros a b (_ & Hp & l' & Hl' & Hq') [Ha Hb]. split.
          + now rewrite Hp.
          + rewrite Hl'. intros Hs. apply in_app_or in Hs.
            destruct Hs as [Hs | Hs]; [| auto].
            rewrite Forall_forall in Hq'. apply (Hq' _ Hs).
        - intros a line [Ha Hb]. split; [assumption |].
          simpl. intros [Hs | Hs]; [discriminate | auto].
        - intros [u t] a [Ha Hb].
          destruct (main_video_cases u t a) as (_ & _ & Hcases).
          destruct Hcases as [(_ & Hp & Hlog)
                             | [(Hnot & Hp & e & l' & Hlog & Hl')
                               | (Hnot & Hp & l' & Hlog & Hl')]];
            (split; [rewrite Hp; auto using in_or_app | rewrite Hlog]).
          + simpl. intros [Hs | Hs]; [discriminate | auto].
          + simpl. intros [Hs | Hs]; [discriminate |].
            apply in_app_or in Hs. destruct Hs as [Hs | [Hs | Hs]].
            * exact (pipeline_event_not_Streams _ _ _ Hl' Hs).
            * injection Hs as ->. auto.
            * auto.
          + simpl. intros [Hs | Hs]; [discriminate |].
            apply in_app_or in Hs. destruct Hs as [Hs | [Hs | Hs]].
            * exact (pipeline_event_not_Streams _ _ _ Hl' Hs).
            * injection Hs as ->. auto.
            * auto.
        - split; simpl; [assumption |].
          intros [Hs | Hs]; [discriminate | auto]. }
      apply HJ.
    + rewrite Hm. simpl. intros [Hs | Hs]; [discriminate | auto].
    + rewrite Hm. simpl. assumption.
  - intros s1 t Hs1. unfold main_video, bind, get_past_videos.
    apply contains_In in Hs1. rewrite Hs1. reflexivity.
Qed.

(** ** The absent catalogue *)

Lemma filter_nil_not_In {A} (f : A -> bool) (l : list A) :
  filter f l = [] -> forall x, In x l -> f x = false.
Proof.
  intros Hnil x Hx. destruct (f x) eqn:Hfx; [| reflexivity].
  assert (Hin : In x (filter f l)) by (apply filter_In; auto).
  rewrite Hnil in Hin. destruct Hin.
Qed.

(** C7: when the catalogue loader finds no file named channels.json and
    returns None, [main] prints its line and returns: the history file is
    neither opened nor changed, and nothing is asked of the resolver or of
    the transfer pipeline; the log of the run holds only events of the
    sweep and of the loader. *)
Theorem absent_catalog_ends_run (s s1 s2 : state) :
  (delete_old_videos E 14 ;; print_now E)%m (restart s) = (Ret tt, s1) ->
  download_channels_list_from_drive E s1 = (Ret None, s2) ->
  main E (restart s) = print "No channels found" s2 /\
  (forall f, In f (drive s1) -> file_name f <> "channels.json") /\
  log s2 = Print "file channels.json not found"
           :: DriveList (Some "channels.json") :: log s1 /\
  past_videos_json (snd (main E (restart s))) = past_videos_json s /\
  Forall prelude_event (log (snd (main E (restart s)))).
Proof.
  intros Hsweep Hload.
  assert (Hpre : prelude E (restart s) = (Ret None, s2)).
  { unfold prelude, bind in *.
    destruct (delete_old_videos E 14 (restart s)) as [[[] | e] s0];
      [| discriminate].
    destruct (print_now E s0) as [[[] | e] s0']; [| discriminate].
    injection Hsweep as ->. exact Hload. }
  pose proof (main_cases (restart s)) as Hm. rewrite Hpre in Hm. simpl in Hm.
  pose proof (prelude_quiet (restart s)) as (Hj & _ & l & Hl & Hq).
  rewrite Hpre in Hj, Hl. simpl in Hj, Hl. rewrite app_nil_r in Hl.
  split; [exact Hm |]. rewrite Hm. simpl.
  revert Hload. unfold download_channels_list_from_drive. exec_unfold.
  destruct (files_list_reply E (tick s1)); simpl; [discriminate |].
  destruct (filter _ (drive s1)) as [| item items] eqn:Hfilter; simpl.
  - intros [= <-]. simpl in *. split; [| split; [reflexivity | split]].
    + intros f Hf Hname.
      pose proof (filter_nil_not_In _ _ Hfilter f Hf) as Hneq. simpl in Hneq.
      apply String.eqb_neq in Hneq. contradiction.
    + assumption.
    + constructor; [exact I | rewrite Hl; assumption].
  - destruct (get_media_reply E (S (tick s1)) (file_id item)) as [chunks r].
    unfold bind.
    match goal with |- context [for_each chunks ?b ?st] =>
      destruct (for_each chunks b st) as [[[] | e] s3] end; simpl;
      [destruct r; simpl |]; discriminate.
Qed.

(** ** Failures are contained *)

Lemma main_video_try_raise (u t : string) (s s' : state) (e : exn) :
  main_video_try E u t s = (Raise e, s') ->
  past_videos s' = past_videos s /\ past_videos_json s' = past_videos_json s.
Proof.
  unfold main_video_try. exec; intros [= <- <-] || discriminate; auto.
Qed.

Lemma main_video_try_outcome (u t : string) (s : state) :
  fst (main_video_try E u t s) = transfer_outcome E (tick s) u t.
Proof.
  unfold main_video_try, transfer_outcome. exec; reflexivity.
Qed.

(** C3: the transfer of a video raises as soon as one of its steps does
    (stream resolution, download, upload, removal of the scratch file);
    when it raises, the URL is not appended to the history list, the
    handler prints the error and the loop goes on with the next video of
    the channel; the loop over the videos never raises, so neither the
    channel nor the run is abandoned. *)
Theorem failed_transfer_not_recorded (u t : string)
    (rest : list (string * string)) (s : state) :
  ~ In u (past_videos s) ->
  fst (main_video_try E u t s) = transfer_outcome E (tick s) u t /\
  forall e s',
    main_video_try E u t s = (Raise e, s') ->
    main_video E (u, t) s = print ("Error: " ++ exn_str e) s' /\
    past_videos (snd (main_video E (u, t) s)) = past_videos s /\
    ~ In u (past_videos (snd (main_video E (u, t) s))) /\
    for_each ((u, t) :: rest) (main_video E) s =
      for_each rest (main_video E) (snd (print ("Error: " ++ exn_str e) s')) /\
    fst (for_each ((u, t) :: rest) (main_video E) s) = Ret tt.
Proof.
  intros Hnew. split; [apply main_video_try_outcome |].
  intros e s' Hraise.
  assert (Hmv : main_video E (u, t) s = print ("Error: " ++ exn_str e) s').
  { unfold main_video, bind, get_past_videos, try_except.
    apply contains_not_In in Hnew. rewrite Hnew, Hraise. reflexivity. }
  destruct (main_video_try_raise _ _ _ _ _ Hraise) as [Hp _].
  split; [exact Hmv |].
  assert (Hsame : past_videos (snd (main_video E (u, t) s)) = past_videos s)
    by (rewrite Hmv; exact Hp).
  split; [exact Hsame |]. split; [now rewrite Hsame |]. split.
  - rewrite for_each_cons by apply main_video_returns. now rewrite Hmv.
  - apply for_each_returns. apply main_video_returns.
Qed.

Lemma nth_error_skipn_hd {A} (l : list A) (i : nat) :
  nth_error l i = hd_error (skipn i l).
Proof.
  revert l. induction i as [| i IH]; intros [| x r]; simpl; auto.
Qed.

Lemma skipn_S_tl {A} (l : list A) (i : nat) :
  skipn (S i) l = tl (skipn i l).
Proof.
  revert l. induction i as [| i IH]; intros [| x r]; try reflexivity.
  change (skipn (S i) r = tl (skipn i r)). apply IH.
Qed.

Lemma extract_videos_suffix (items : list playlist_item) (n i : nat)
    (s : state) :
  extract_videos items i n s =
  if n <=? List.length (skipn i items)
  then (Ret (map video_of_item (firstn n (skipn i items))), s)
  else (Raise (mkExn IndexError "list index out of range"), s).
Proof.
  revert i. induction n as [| n IH]; intros i; [reflexivity |].
  simpl extract_videos. rewrite nth_error_skipn_hd.
  specialize (IH (S i)). rewrite skipn_S_tl in IH.
  destruct (skipn i items) as [| it l']; simpl; [reflexivity |].
  unfold bind. rewrite IH. simpl.
  destruct (n <=? List.length l'); reflexivity.
Qed.

Lemma extract_videos_spec (items : list playlist_item) (n : nat) (s : state) :
  extract_videos items 0 n s =
  if n <=? List.length items
  then (Ret (map video_of_item (firstn n items)), s)
  else (Raise (mkExn IndexError "list index out of range"), s).
Proof. apply (extract_videos_suffix items n 0 s). Qed.

(** ** The resolver *)

Lemma get_latest_video_url_result (c : string) (n : nat) (s : state) :
  fst (get_latest_video_url E c n s) = Ret (resolution_at E (tick s) c n).
Proof.
  unfold get_latest_video_url, resolution_at.
  destruct (c =? "")%string; [reflexivity |].
  exec_unfold.
  destruct (channels_list_reply E (tick s) c) as [e | [| uploads others]];
    simpl; [destruct (is_HttpError e); reflexivity | reflexivity |].
  destruct (playlist_items_reply E (S (tick s)) uploads n)
    as [e | [| it items]]; simpl;
    [destruct (is_HttpError e); reflexivity | reflexivity |].
  rewrite extract_videos_spec. cbn [List.length].
  destruct (n <=? S (List.length items)); reflexivity.
Qed.

Lemma get_latest_video_url_request (c : string) (n : nat) (s : state) :
  c <> "" -> In (ChannelsList c) (log (snd (get_latest_video_url E c n s))).
Proof.
  intros Hc. apply String.eqb_neq in Hc.
  unfold get_latest_video_url. rewrite Hc. exec_unfold.
  destruct (channels_list_reply E (tick s) c) as [e | [| uploads others]];
    simpl; [destruct (is_HttpError e); simpl; auto | auto |].
  destruct (playlist_items_reply E (S (tick s)) uploads n)
    as [e | [| it items]]; simpl;
    [destruct (is_HttpError e); simpl; auto | auto |].
  rewrite extract_videos_spec. cbn [List.length].
  destruct (n <=? S (List.length items)); simpl; auto.
Qed.

Lemma main_channels_request (channels : list string) (B : string)
    (s : state) :
  In B channels -> B <> "" ->
  In (ChannelsList B) (log (snd (for_each channels (main_channel E) s))).
Proof.
  revert s. induction channels as [| c rest IH]; intros s HB Hne;
    [destruct HB |].
  rewrite for_each_cons by apply main_channel_returns.
  destruct HB as [-> | HB]; [| now apply IH].
  destruct (main_channels_sync rest (snd (main_channel E B s)))
    as (_ & _ & l & ->).
  apply in_or_app. right.
  pose proof (main_channel_cases B s) as Hc. simpl in Hc.
  pose proof (get_latest_video_url_request B LAST_VIDEO_N s Hne) as Hreq.
  destruct (get_latest_video_url E B LAST_VIDEO_N s) as [[[vs | msg] | e] s1];
    simpl in *; [| | contradiction]; rewrite Hc.
  - pose proof (stable_for_each (R := sync_rel) vs (main_video E)
                  (fun v _ => main_video_sync v) s1) as (_ & _ & l' & ->).
    apply in_or_app. now right.
  - simpl. now right.
Qed.

(** C4: when the body of the loop raises for channel A, the handler prints
    the error and the loop goes on: every later channel B is put to the
    resolver (its channel request is in the log of the run), the loop
    returns normally, and the entries of the history list recorded for the
    channels before A are all there, in their place, after A and at the
    end of the run. *)
Theorem channel_failure_isolated (pre post : list string) (A : string)
    (s sA : state) (e : exn) :
  let s1 := snd (for_each pre (main_channel E) s) in
  let s2 := snd (main_channel E A s1) in
  let r := for_each (pre ++ A :: post) (main_channel E) s in
  main_channel_try E A s1 = (Raise e, sA) ->
  main_channel E A s1 = print ("Error: " ++ exn_str e) sA /\
  past_videos s2 = past_videos s1 /\
  r = for_each post (main_channel E) s2 /\
  fst r = Ret tt /\
  (forall B, In B post -> B <> "" -> In (ChannelsList B) (log (snd r))) /\
  (exists added, past_videos (snd r) = past_videos s1 ++ added) /\
  past_videos_json (snd r) = past_videos_json s.
Proof.
  intros s1 s2 r Hraise.
  assert (Hmc : main_channel E A s1 = print ("Error: " ++ exn_str e) sA).
  { unfold main_channel, try_except. now rewrite Hraise. }
  assert (Hr : r = for_each post (main_channel E) s2).
  { subst r s2 s1.
    rewrite for_each_app, for_each_cons by apply main_channel_returns.
    reflexivity. }
  split; [exact Hmc |]. split; [| split; [exact Hr | split; [| split]]].
  - subst s2. rewrite Hmc. simpl.
    revert Hraise. unfold main_channel_try, bind.
    pose proof (get_latest_video_url_quiet A LAST_VIDEO_N s1)
      as (_ & Hp & _).
    destruct (get_latest_video_url E A LAST_VIDEO_N s1)
      as [[[vs | msg] | e'] s1']; simpl in *.
    + destruct vs as [| v vs]; lazy beta iota;
        [unfold ret; intros Hx; discriminate Hx |].
      pose proof (for_each_returns (main_video E) (v :: vs)
                    main_video_returns s1') as Hret.
      destruct (for_each (v :: vs) (main_video E) s1') as [[[] | e''] s1''];
        simpl in Hret; [intros Hx; discriminate Hx | discriminate Hret].
    + intros [= <- <-]. exact Hp.
    + intros [= <- <-]. exact Hp.
  - apply for_each_returns. apply main_channel_returns.
  - intros B HB Hne. rewrite Hr. now apply main_channels_request.
  - rewrite Hr.
    destruct (main_channels_sync post s2) as (Hj & [added Hadd] & _).
    destruct (main_channel_sync A s1) as (Hj1 & [added1 Hadd1] & _).
    destruct (main_channels_sync pre s) as (Hj0 & _).
    fold s1 in Hj0. fold s2 in Hj1, Hadd1.
    split; [| congruence].
    exists (added1 ++ added). rewrite Hadd, Hadd1. symmetry. apply app_assoc.
Qed.

(** C8: the resolver always returns.  When the channel is found and its
    uploads playlist answers with at least [n] items, it returns the first
    [n] of them, in the order of the reply and each with the URL built
    from its video identifier; it returns a list in no other case, and
    otherwise the tuple that carries an error: with its message when the
    channel is not found, and when the playlist is empty.  On such a tuple
    the caller prints an error, leaves the history list as it was and goes
    on with the next channel. *)
Theorem resolver_contract (c : string) (n : nat) (s : state) :
  let r := fst (get_latest_video_url E c n s) in
  let url_title (it : playlist_item) :=
    (("https://www.youtube.com/watch?v=" ++ videoId it)%string, title it) in
  (c <> "" ->
   forall uploads others items,
     channels_list_reply E (tick s) c = inr (uploads :: others) ->
     playlist_items_reply E (S (tick s)) uploads n = inr items ->
     items <> [] -> n <= List.length items ->
     r = Ret (Videos (map url_title (firstn n items)))) /\
  (forall videos,
     r = Ret (Videos videos) ->
     c <> "" /\
     exists uploads others items,
       channels_list_reply E (tick s) c = inr (uploads :: others) /\
       playlist_items_reply E (S (tick s)) uploads n = inr items /\
       items <> [] /\ n <= List.length items /\
       videos = map url_title (firstn n items)) /\
  ((exists videos, r = Ret (Videos videos)) \/
   (exists message, r = Ret (NoneAnd message))) /\
  (c <> "" ->
   channels_list_reply E (tick s) c = inr [] ->
   r = Ret (NoneAnd ("No channel found with ID: " ++ c))) /\
  (c <> "" ->
   forall uploads others,
     channels_list_reply E (tick s) c = inr (uploads :: others) ->
     playlist_items_reply E (S (tick s)) uploads n = inr [] ->
     r = Ret (NoneAnd "Channel has no videos")) /\
  (forall message s1 rest,
     get_latest_video_url E c LAST_VIDEO_N s = (Ret (NoneAnd message), s1) ->
     main_channel E c s =
       print "Error: cannot unpack non-iterable NoneType object" s1 /\
     past_videos (snd (main_channel E c s)) = past_videos s /\
     for_each (c :: rest) (main_channel E) s =
       for_each rest (main_channel E) (snd (main_channel E c s)) /\
     fst (for_each (c :: rest) (main_channel E) s) = Ret tt).
Proof.
  intros r url_title. subst r. rewrite get_latest_video_url_result.
  change url_title with video_of_item. clear url_title.
  split; [| split; [| split; [| split; [| split]]]].
  - intros Hc uploads others items Hreply Hitems Hne Hn.
    apply String.eqb_neq in Hc. apply Nat.leb_le in Hn.
    unfold resolution_at. rewrite Hc, Hreply, Hitems, Hn.
    destruct items; [contradiction | reflexivity].
  - intros videos. unfold resolution_at.
    destruct (c =? "")%string eqn:Hc; [discriminate |].
    apply String.eqb_neq in Hc.
    destruct (channels_list_reply E (tick s) c) as [e | [| uploads others]];
      [destruct (is_HttpError e); discriminate | discriminate |].
    destruct (playlist_items_reply E (S (tick s)) uploads n)
      as [e | [| it items]] eqn:Hitems;
      [destruct (is_HttpError e); discriminate | discriminate |].
    destruct (n <=? List.length (it :: items)) eqn:Hn; [| discriminate].
    intros [= <-]. split; [exact Hc |].
    exists uploads, others, (it :: items).
    apply Nat.leb_le in Hn. repeat split; auto. discriminate.
  - unfold resolution_at.
    destruct (c =? "")%string; [eauto |].
    destruct (channels_list_reply E (tick s) c) as [e | [| uploads others]];
      [destruct (is_HttpError e); eauto | eauto |].
    destruct (playlist_items_reply E (S (tick s)) uploads n)
      as [e | [| it items]] eqn:Hitems;
      [destruct (is_HttpError e); eauto | eauto |].
    destruct (n <=? List.length (it :: items)) eqn:Hn; simpl; eauto.
  - intros Hc Hreply. apply String.eqb_neq in Hc.
    unfold resolution_at. now rewrite Hc, Hreply.
  - intros Hc uploads others Hreply Hitems. apply String.eqb_neq in Hc.
    unfold resolution_at. now rewrite Hc, Hreply, Hitems.
  - intros message s1 rest Hres.
    pose proof (main_channel_cases c s) as Hc. simpl in Hc.
    pose proof (get_latest_video_url_quiet c LAST_VIDEO_N s) as (_ & Hp & _).
    rewrite Hres in Hc, Hp. simpl in Hc, Hp.
    split; [exact Hc |]. split; [rewrite Hc; exact Hp |]. split.
    + apply for_each_cons. apply main_channel_returns.
    + apply for_each_returns. apply main_channel_returns.
Qed.

(** ** No URL is recorded twice *)

Lemma prefix_append (s m : string) : String.prefix s (s ++ m) = true.
Proof.
  induction s as [| a s IH]; unfold String.append; fold String.append.
  - destruct m; reflexivity.
  - simpl. destruct (ascii_dec a a); [exact IH | contradiction].
Qed.

Lemma transfer_count_app (url : string) (l1 l2 : list event) :
  transfer_count url (l1 ++ l2) = transfer_count url l1 + transfer_count url l2.
Proof. unfold transfer_count. now rewrite filter_app, length_app. Qed.

Lemma transfer_count_cons (url : string) (e : event) (l : list event) :
  is_Streams url e = false ->
  transfer_count url (e :: l) = transfer_count url l.
Proof. intros He. unfold transfer_count. simpl. now rewrite He. Qed.

Lemma transfer_count_none (url : string) (P : event -> Prop)
    (l : list event) :
  (forall e, P e -> is_Streams url e = false) ->
  Forall P l -> transfer_count url l = 0.
Proof.
  intros HP Hl. unfold transfer_count.
  induction Hl as [| e l He _ IH]; simpl; [reflexivity |].
  now rewrite (HP e He).
Qed.

Lemma pipeline_event_no_Streams (t url : string) (e : event) :
  pipeline_event t e -> is_Streams url e = false.
Proof. destruct e; simpl; intros H; auto; contradiction. Qed.

Lemma resolver_event_no_Streams (url : string) (e : event) :
  resolver_event e -> is_Streams url e = false.
Proof. destruct e; simpl; intros H; auto; contradiction. Qed.

Lemma prelude_event_no_Streams (url : string) (e : event) :
  prelude_event e -> is_Streams url e = false.
Proof. destruct e; simpl; intros H; auto; contradiction. Qed.

Lemma under_way_neutral (l old : list event) :
  Forall neutral l -> under_way (l ++ old) = under_way old.
Proof.
  induction 1 as [| e l (He & Hu & Hs) _ IH]; [reflexivity |].
  simpl. rewrite He, Hu. simpl.
  destruct e; auto. exfalso. now apply (Hs video_url).
Qed.

Lemma failed_transfers_neutral (url : string) (l old : list event) :
  Forall neutral l ->
  failed_transfers url (l ++ old) = failed_transfers url old.
Proof.
  induction 1 as [| e l (He & _) _ IH]; [reflexivity |].
  simpl. now rewrite He, IH.
Qed.

Lemma transfer_count_neutral (url : string) (l old : list event) :
  Forall neutral l ->
  transfer_count url (l ++ old) = transfer_count url old.
Proof.
  intros Hl. rewrite transfer_count_app.
  rewrite (transfer_count_none url neutral); [reflexivity | | exact Hl].
  intros e (_ & _ & Hs). destruct e; try reflexivity.
  exfalso. now apply (Hs video_url).
Qed.

Lemma resolver_event_neutral (e : event) : resolver_event e -> neutral e.
Proof.
  destruct e; simpl; intros H; try contradiction;
    (split; [reflexivity | split; [reflexivity | discriminate]]).
Qed.

Lemma pipeline_event_neutral (t : string) (e : event) :
  pipeline_event t e -> neutral e.
Proof.
  destruct e; simpl; intros H; try contradiction;
    try (split; [reflexivity | split; [reflexivity | discriminate]]).
  subst line. split; [| split]; [reflexivity | reflexivity | discriminate].
Qed.

Lemma Forall_neutral (P : event -> Prop) (l : list event) :
  (forall e, P e -> neutral e) -> Forall P l -> Forall neutral l.
Proof. intros HP Hl. eapply Forall_impl; eauto. Qed.

Lemma failed_transfers_cons (url : string) (e : event) (l : list event) :
  failed_transfers url (e :: l)
  = (if (error_line e && under_way_of url l)%bool then 1 else 0)
    + failed_transfers url l.
Proof. reflexivity. Qed.

Lemma under_way_Print (line : string) (l : list event) :
  under_way (Print line :: l)
  = if (error_line (Print line) || uploaded_line (Print line))%bool
    then None else under_way l.
Proof. reflexivity. Qed.

(** The log of a transfer of [u] that ended with the line [last]. *)
Lemma failed_transfers_transfer (url u last : string) (l old : list event) :
  Forall neutral l ->
  failed_transfers url (Print last :: l ++ Streams u :: old)
  = (if (error_line (Print last) && (u =? url)%string)%bool then 1 else 0)
    + failed_transfers url old.
Proof.
  intros Hl. rewrite failed_transfers_cons. unfold under_way_of.
  rewrite under_way_neutral by assumption.
  rewrite failed_transfers_neutral by assumption.
  rewrite failed_transfers_cons. reflexivity.
Qed.

Lemma transfer_count_transfer (url u last : string) (l old : list event) :
  Forall neutral l ->
  transfer_count url (Print last :: l ++ Streams u :: old)
  = (if (u =? url)%string then 1 else 0) + transfer_count url old.
Proof.
  intros Hl. rewrite transfer_count_cons by reflexivity.
  rewrite transfer_count_neutral by assumption.
  unfold transfer_count. simpl. now destruct (u =? url)%string.
Qed.

(** A printed line leaves the count as it is when no transfer is under
    way. *)
Lemma counted_print (s : state) (line : string) :
  counted s -> counted (snd (print line s)).
Proof.
  intros [Hclosed Hcount]. split; simpl.
  - rewrite Hclosed. now destruct (_ || _)%bool.
  - intros url. specialize (Hcount url).
    unfold under_way_of. rewrite Hclosed, andb_false_r.
    rewrite transfer_count_cons by reflexivity. exact Hcount.
Qed.

Lemma counted_channels (channels : list string) :
  stable (preserves counted) (for_each channels (main_channel E)).
Proof.
  apply channels_invariant.
  - intros a b (_ & Hp & l & Hl & Hq) [Hclosed Hcount].
    apply (Forall_neutral _ _ resolver_event_neutral) in Hq.
    split.
    + now rewrite Hl, under_way_neutral.
    + intros url. specialize (Hcount url).
      now rewrite Hl, Hp, failed_transfers_neutral, transfer_count_neutral.
  - intros a line Ha. now apply counted_print.
  - intros [u t] a Ha.
    destruct (main_video_cases u t a) as (_ & _ & Hcases).
    destruct Hcases as [(_ & Hp & Hlog)
                       | [(Hnot & Hp & e & l & Hlog & Hl)
                         | (Hnot & Hp & l & Hlog & Hl)]].
    + pose proof (counted_print a ("Skipping: " ++ t) Ha) as Hs.
      destruct Hs as [Hclosed Hcount]. simpl in Hclosed, Hcount.
      split; [now rewrite Hlog | now rewrite Hlog, Hp].
    + destruct Ha as [Hclosed Hcount].
      apply (Forall_neutral _ _ (pipeline_event_neutral t)) in Hl.
      assert (Herr : error_line (Print ("Error: " ++ exn_str e)) = true)
        by apply prefix_append.
      split.
      * now rewrite Hlog, under_way_Print, Herr.
      * intros url. specialize (Hcount url). rewrite Hlog, Hp.
        rewrite failed_transfers_transfer, transfer_count_transfer, Herr
          by assumption.
        destruct (u =? url)%string; simpl;
          destruct (contains (past_videos a) url); lia.
    + destruct Ha as [Hclosed Hcount].
      apply (Forall_neutral _ _ (pipeline_event_neutral t)) in Hl.
      assert (Hup : uploaded_line (Print ("Uploaded: " ++ t)) = true)
        by apply prefix_append.
      assert (Herr : error_line (Print ("Uploaded: " ++ t)) = false)
        by reflexivity.
      split.
      * now rewrite Hlog, under_way_Print, Hup, Herr.
      * intros url. specialize (Hcount url). rewrite Hlog, Hp.
        rewrite failed_transfers_transfer, transfer_count_transfer, Herr
          by assumption.
        destruct (u =? url)%string eqn:Hu; simpl.
        -- apply String.eqb_eq in Hu. subst url.
           apply contains_not_In in Hnot. rewrite Hnot in Hcount.
           destruct (contains (past_videos a ++ [u]) u) eqn:Hc.
           ++ lia.
           ++ apply contains_not_In in Hc. exfalso. apply Hc.
              apply in_or_app. right. now left.
        -- destruct (contains (past_videos a) url) eqn:Hc.
           ++ apply contains_In in Hc.
              assert (Hc' : contains (past_videos a ++ [u]) url = true)
                by (apply contains_In, in_or_app; now left).
              rewrite Hc'. lia.
           ++ destruct (contains (past_videos a ++ [u]) url); lia.
Qed.

Lemma appended_once_channels (h : list string) (channels : list string) :
  stable (preserves (appended_once h)) (for_each channels (main_channel E)).
Proof.
  apply channels_invariant.
  - intros a b (_ & Hp & _) Ha. unfold appended_once. now rewrite Hp.
  - intros a line Ha. exact Ha.
  - intros [u t] a (added & Ha & Hnd & Hnew).
    destruct (main_video_cases u t a) as (_ & _ & Hcases).
    destruct Hcases as [(_ & Hp & _)
                       | [(_ & Hp & _) | (Hnot & Hp & _)]];
      unfold appended_once; rewrite Hp.
    + exists added. auto.
    + exists added. auto.
    + rewrite Ha in Hnot. exists (added ++ [u]). split; [| split].
      * rewrite Ha. symmetry. apply app_assoc.
      * apply NoDup_app; [assumption | repeat constructor; intros [] |].
        intros x Hx [<- | []]. apply Hnot, in_or_app. now right.
      * intros x Hx. apply in_app_or in Hx. destruct Hx as [Hx | [<- | []]].
        -- now apply Hnew.
        -- intros Hh. apply Hnot, in_or_app. now left.
Qed.

(** C10, amended: within a run no URL is appended to the history list
    more than once, and none that the list read at the start already had;
    the transfer pipeline is started for a URL at most once more than the
    number of transfers of that same URL that failed in the run, hence at
    most once for a URL none of whose transfers failed; and when the
    history list read at the start is free of duplicates, so is the list
    that the run leaves in the history file. *)
Theorem history_appended_once (s : state) (h : list string) :
  past_videos_json s = Some h ->
  let s' := snd (main E (restart s)) in
  (exists added,
     past_videos_json s' = Some (h ++ added) /\ NoDup added /\
     forall u, In u added -> ~ In u h) /\
  (forall url,
     failed_transfers url (log s') <= transfer_count url (log s') /\
     transfer_count url (log s') <= 1 + failed_transfers url (log s')) /\
  (NoDup h -> forall h', past_videos_json s' = Some h' -> NoDup h').
Proof.
  intros Hfile s'.
  assert (Hmain :
    (exists added,
       past_videos_json s' = Some (h ++ added) /\ NoDup added /\
       forall u, In u added -> ~ In u h) /\
    (forall url,
       failed_transfers url (log s') <= transfer_count url (log s') /\
       transfer_count url (log s') <= 1 + failed_transfers url (log s'))).
  { subst s'.
    pose proof (main_cases (restart s)) as Hm. simpl in Hm.
    destruct (prelude_quiet (restart s)) as (Hj & _ & l & Hl & Hquiet).
    simpl in Hj, Hl. rewrite app_nil_r in Hl.
    assert (Hnone : forall url,
               transfer_count url (log (snd (prelude E (restart s)))) = 0).
    { intros url. rewrite Hl.
      apply (transfer_count_none url prelude_event);
        auto using prelude_event_no_Streams. }
    assert (Hclosed : forall l0,
               Forall prelude_event l0 ->
               under_way l0 = None /\
               forall url, failed_transfers url l0 = 0).
    { induction 1 as [| e l0 He _ [IHu IHf]]; [split; reflexivity |].
      split.
      - simpl. rewrite IHu.
        destruct e; try contradiction; simpl;
          try reflexivity; now destruct (_ || _)%bool.
      - intros url. simpl. unfold under_way_of.
        now rewrite IHu, andb_false_r, IHf. }
    rewrite <- Hl in Hquiet. apply Hclosed in Hquiet.
    destruct Hquiet as [Hway Hfailed].
    assert (Hsame : exists added,
               past_videos_json (snd (prelude E (restart s)))
               = Some (h ++ added) /\ NoDup added /\
               forall u, In u added -> ~ In u h).
    { exists []. rewrite Hj, Hfile, app_nil_r.
      split; [reflexivity | split; [constructor | intros u []]]. }
    destruct (prelude E (restart s)) as [[[channels |] | e] s1]; simpl in *.
    - rewrite Hj, Hfile in Hm. rewrite Hm. simpl.
      pose proof (appended_once_channels h channels (loaded h s1)) as Hap.
      pose proof (counted_channels channels (loaded h s1)) as Hco.
      split.
      + destruct Hap as (added & -> & Hnd & Hnew); [| eauto].
        exists []. simpl. rewrite app_nil_r.
        split; [reflexivity | split; [constructor | intros u []]].
      + intros url.
        assert (Hstart : counted (loaded h s1)).
        { split; simpl; [exact Hway |].
          intros u. rewrite Hfailed.
          rewrite transfer_count_cons by reflexivity.
          rewrite Hnone. lia. }
        destruct (Hco Hstart) as [_ Hcount]. specialize (Hcount url).
        rewrite transfer_count_cons by reflexivity.
        destruct (contains _ url); lia.
    - rewrite Hm. simpl. split; [assumption |].
      intros url. unfold under_way_of. rewrite ?Hway, Hfailed.
      rewrite transfer_count_cons by reflexivity.
      rewrite Hnone. simpl. lia.
    - rewrite Hm. simpl. split; [assumption |].
      intros url. rewrite Hnone, Hfailed. lia. }
  destruct Hmain as [Hadded Hcount].
  split; [exact Hadded | split; [exact Hcount |]].
  intros Hnd h' Hh'. destruct Hadded as (added & Hfinal & Hnda & Hnew).
  rewrite Hfinal in Hh'. injection Hh' as <-.
  apply NoDup_app; auto.
  intros x Hx Hxa. exact (Hnew x Hxa Hx).
Qed.

(** ** The sweep and the folder *)

#[local] Instance drive_shrinks_preorder : PreOrder drive_shrinks.
Proof. split; unfold drive_shrinks; [intros s | intros a b c]; auto. Qed.

Lemma shrinks_emit (e : event) : stable drive_shrinks (emit e).
Proof. intros s f Hf. exact Hf. Qed.

Lemma shrinks_next_tick : stable drive_shrinks next_tick.
Proof. intros s f Hf. exact Hf. Qed.

Lemma shrinks_filter (p : drive_file -> bool) :
  stable drive_shrinks (modify_drive (filter p)).
Proof. intros s f Hf. simpl in Hf. now apply filter_In in Hf. Qed.

Lemma prelude_shrinks : stable drive_shrinks (prelude E).
Proof.
  unfold prelude. stable_split;
    first [ apply shrinks_emit | apply shrinks_next_tick
          | apply shrinks_filter ].
Qed.

Lemma for_each_cons_inv {A} (body : A -> M unit) (x : A) (rest : list A)
    (s s' : state) :
  for_each (x :: rest) body s = (Ret tt, s') ->
  exists s1, body x s = (Ret tt, s1) /\ for_each rest body s1 = (Ret tt, s').
Proof.
  simpl. unfold bind.
  destruct (body x s) as [[[] | e] s1]; [eauto | discriminate].
Qed.

Lemma delete_old_videos_item_shrinks (days : Z) (item : drive_file) :
  stable drive_shrinks (delete_old_videos_item E days item).
Proof.
  stable_split;
    first [ apply shrinks_emit | apply shrinks_next_tick
          | apply shrinks_filter ].
Qed.

(** A file older than the threshold whenever it is compared, and whose
    deletion the provider accepts, is gone after its turn in the sweep. *)
Lemma delete_old_videos_item_removes (days : Z) (f : drive_file)
    (created : Z) (s : state) :
  fromisoformat E (drop_last (file_createdTime f)) = Some created ->
  (forall t, (clock E t - created > timedelta_days days)%Z) ->
  (forall t, files_delete_reply E t (file_id f) = None) ->
  let s' := snd (delete_old_videos_item E days f s) in
  (forall g, In g (drive s') -> file_id g <> file_id f) /\
  In (DriveDelete (file_id f)) (log s').
Proof.
  intros Hparse Hold Hok.
  unfold delete_old_videos_item, is_older_than_days. rewrite Hparse.
  exec_unfold.
  replace (created <? clock E (tick s) - timedelta_days days)%Z with true
    by (symmetry; apply Z.ltb_lt; specialize (Hold (tick s)); lia).
  simpl. rewrite Hok. simpl. split; [| auto].
  intros g Hg. apply filter_In in Hg. destruct Hg as [_ Hg].
  apply negb_true_iff, String.eqb_neq in Hg. exact Hg.
Qed.

Lemma sweep_loop_removes (days : Z) (f : drive_file) (created : Z)
    (items : list drive_file) (s s' : state) :
  fromisoformat E (drop_last (file_createdTime f)) = Some created ->
  (forall t, (clock E t - created > timedelta_days days)%Z) ->
  (forall t, files_delete_reply E t (file_id f) = None) ->
  In f items ->
  for_each items (delete_old_videos_item E days) s = (Ret tt, s') ->
  (forall g, In g (drive s') -> file_id g <> file_id f) /\
  In (DriveDelete (file_id f)) (log s').
Proof.
  intros Hparse Hold Hok. revert s.
  induction items as [| x rest IH]; intros s Hin Hrun; [destruct Hin |].
  apply for_each_cons_inv in Hrun. destruct Hrun as (s1 & Hx & Hrest).
  destruct Hin as [-> | Hin]; [| now apply (IH s1)].
  pose proof (delete_old_videos_item_removes days f created s
                Hparse Hold Hok) as [Hgone Hreq].
  rewrite Hx in Hgone, Hreq. simpl in Hgone, Hreq.
  pose proof (stable_for_each (R := drive_shrinks) rest
                (delete_old_videos_item E days)
                (fun y _ => delete_old_videos_item_shrinks days y) s1)
    as Hshrink.
  pose proof (stable_for_each (R := quiet prelude_event) rest
                (delete_old_videos_item E days)) as Hquiet.
  specialize (Hquiet ltac:(intros y _; quiet_solve) s1).
  destruct Hquiet as (_ & _ & l & Hl & _).
  rewrite Hrest in Hshrink, Hl. simpl in Hshrink, Hl. split.
  - intros g Hg. apply Hgone. now apply Hshrink.
  - rewrite Hl. apply in_or_app. now right.
Qed.

Lemma sweep_removes (days : Z) (f : drive_file) (created : Z)
    (s s' : state) :
  fromisoformat E (drop_last (file_createdTime f)) = Some created ->
  (forall t, (clock E t - created > timedelta_days days)%Z) ->
  (forall t, files_delete_reply E t (file_id f) = None) ->
  In f (drive s) ->
  delete_old_videos E days s = (Ret tt, s') ->
  (forall g, In g (drive s') -> file_id g <> file_id f) /\
  In (DriveDelete (file_id f)) (log s').
Proof.
  intros Hparse Hold Hok Hin.
  unfold delete_old_videos, files_list. exec_unfold.
  destruct (files_list_reply E (tick s)); simpl; [discriminate |].
  intros Hrun.
  exact (sweep_loop_removes days f created (drive s) _ s'
           Hparse Hold Hok Hin Hrun).
Qed.

#[local] Instance tick_grows_preorder : PreOrder tick_grows.
Proof. split; unfold tick_grows; [intros s | intros a b c]; lia. Qed.

Lemma ticks_emit (e : event) : stable tick_grows (emit e).
Proof. intros s. unfold tick_grows. simpl. lia. Qed.

Lemma ticks_next_tick : stable tick_grows next_tick.
Proof. intros s. unfold tick_grows. simpl. lia. Qed.

Lemma ticks_modify_drive (f : list drive_file -> list drive_file) :
  stable tick_grows (modify_drive f).
Proof. intros s. unfold tick_grows. simpl. lia. Qed.

Lemma delete_old_videos_item_ticks (days : Z) (item : drive_file) :
  stable tick_grows (delete_old_videos_item E days item).
Proof.
  stable_split;
    first [ apply ticks_emit | apply ticks_next_tick
          | apply ticks_modify_drive ].
Qed.

(** A delete request that a step of the sweep adds to the log is for the
    file of that step, found older than the threshold at its tick. *)
Lemma delete_old_videos_item_request (days : Z) (item : drive_file)
    (s : state) (id : string) :
  let s' := snd (delete_old_videos_item E days item s) in
  In (DriveDelete id) (log s') ->
  In (DriveDelete id) (log s) \/
  (id = file_id item /\ tick s < tick s' /\
   exists created,
     fromisoformat E (drop_last (file_createdTime item)) = Some created /\
     (clock E (tick s) - created > timedelta_days days)%Z).
Proof.
  unfold delete_old_videos_item, is_older_than_days.
  destruct (fromisoformat E (drop_last (file_createdTime item)))
    as [created |]; [| simpl; auto].
  exec_unfold.
  destruct (created <? clock E (tick s) - timedelta_days days)%Z eqn:Hcmp;
    simpl; [| auto].
  apply Z.ltb_lt in Hcmp.
  assert (Hold : exists c,
             Some created = Some c /\
             (clock E (tick s) - c > timedelta_days days)%Z)
    by (exists created; split; [reflexivity | lia]).
  repeat (exec_step; simpl);
    intros H;
    repeat (destruct H as [H | H];
            [first [ discriminate H
                   | injection H as <-; right;
                     split; [reflexivity | split; [lia | exact Hold]] ] |]);
    auto.
Qed.

Lemma sweep_loop_requests (days : Z) (items : list drive_file) (s : state)
    (id : string) :
  let s' := snd (for_each items (delete_old_videos_item E days) s) in
  In (DriveDelete id) (log s') ->
  In (DriveDelete id) (log s) \/
  exists item created t,
    In item items /\ file_id item = id /\
    fromisoformat E (drop_last (file_createdTime item)) = Some created /\
    tick s <= t < tick s' /\
    (clock E t - created > timedelta_days days)%Z.
Proof.
  revert s. induction items as [| x rest IH]; intros s; [simpl; auto |].
  cbv zeta. simpl for_each. unfold bind.
  pose proof (delete_old_videos_item_request days x s id) as Hx.
  pose proof (delete_old_videos_item_ticks days x s) as Htx.
  destruct (delete_old_videos_item E days x s) as [[[] | e] s1];
    simpl in Hx, Htx |- *.
  - pose proof (stable_for_each (R := tick_grows) rest
                  (delete_old_videos_item E days)
                  (fun y _ => delete_old_videos_item_ticks days y) s1) as Htr.
    unfold tick_grows in Htx, Htr.
    intros H. destruct (IH s1 H) as [H1 | (item & c & t & Hi & Hid & Hp & Ht & Ho)].
    + destruct (Hx H1) as [H0 | (-> & Hlt & c & Hp & Ho)]; [now left |].
      right. exists x, c, (tick s). repeat split; simpl; auto; lia.
    + right. exists item, c, t. repeat split; simpl; auto; lia.
  - intros H. destruct (Hx H) as [H0 | (-> & Hlt & c & Hp & Ho)]; [now left |].
    right. exists x, c, (tick s). repeat split; simpl; auto; lia.
Qed.

Lemma sweep_loop_issues (days : Z) (f : drive_file) (created : Z)
    (items : list drive_file) (s s' : state) :
  fromisoformat E (drop_last (file_createdTime f)) = Some created ->
  (forall t, (clock E t - created > timedelta_days days)%Z) ->
  In f items ->
  for_each items (delete_old_videos_item E days) s = (Ret tt, s') ->
  In (DriveDelete (file_id f)) (log s').
Proof.
  intros Hparse Hold. revert s.
  induction items as [| x rest IH]; intros s Hin Hrun; [destruct Hin |].
  apply for_each_cons_inv in Hrun. destruct Hrun as (s1 & Hx & Hrest).
  destruct Hin as [-> | Hin]; [| now apply (IH s1)].
  destruct (delete_old_videos_item_boundary days f created s Hparse)
    as (_ & l & Hl & [_ Hreq] & _).
  rewrite Hx in Hl. simpl in Hl.
  pose proof (stable_for_each (R := quiet prelude_event) rest
                (delete_old_videos_item E days)) as Hquiet.
  specialize (Hquiet ltac:(intros y _; quiet_solve) s1).
  destruct Hquiet as (_ & _ & l' & Hl' & _).
  rewrite Hrest in Hl'. simpl in Hl'.
  rewrite Hl', Hl. apply in_or_app. right. apply in_or_app. left.
  apply Hreq. specialize (Hold (tick s)). lia.
Qed.

(** C5: the sweep issues the delete request for a file exactly when its
    age, at the time of the comparison, is strictly greater than the
    threshold.  For one file of the listing: a file created exactly [days]
    before the comparison is kept, with no request at all, and a file one
    second older gets its delete request.  For a whole sweep that returns:
    a file older than the threshold at every time gets its request, and
    every request issued is for a file of the folder found older than the
    threshold at a tick of the sweep. *)
Theorem retention_boundary (days : Z) :
  (forall item created s,
     fromisoformat E (drop_last (file_createdTime item)) = Some created ->
     let now := clock E (tick s) in
     let s' := snd (delete_old_videos_item E days item s) in
     fst (is_older_than_days E (file_createdTime item) days s)
       = Ret (created <? now - timedelta_days days)%Z /\
     exists l,
       log s' = l ++ log s /\
       (In (DriveDelete (file_id item)) l <->
        (now - created > timedelta_days days)%Z) /\
       ((now - created = timedelta_days days)%Z ->
        l = [] /\ drive s' = drive s) /\
       ((now - created = timedelta_days days + 1000000)%Z ->
        In (DriveDelete (file_id item)) l)) /\
  (forall s s',
     delete_old_videos E days s = (Ret tt, s') ->
     (forall item created,
        In item (drive s) ->
        fromisoformat E (drop_last (file_createdTime item)) = Some created ->
        (forall t, (clock E t - created > timedelta_days days)%Z) ->
        In (DriveDelete (file_id item)) (log s')) /\
     (forall id,
        In (DriveDelete id) (log s') ->
        In (DriveDelete id) (log s) \/
        exists item created t,
          In item (drive s) /\ file_id item = id /\
          fromisoformat E (drop_last (file_createdTime item)) = Some created /\
          tick s <= t < tick s' /\
          (clock E t - created > timedelta_days days)%Z)).
Proof.
  split.
  - intros item created s Hparse.
    exact (delete_old_videos_item_boundary days item created s Hparse).
  - intros s s'.
    unfold delete_old_videos, files_list, bind, emit, next_tick, get_drive,
      of_option, ret, raise.
    simpl.
    destruct (files_list_reply E (tick s)); simpl; [discriminate |].
    intros Hrun. split.
    + intros item created Hin Hparse Hold.
      exact (sweep_loop_issues days item created (drive s) _ s'
               Hparse Hold Hin Hrun).
    + intros id Hid.
      pose proof (sweep_loop_requests days (drive s)
                    (mkState (S (tick s)) (drive s) (past_videos_json s)
                             (past_videos s) (DriveList None :: log s)) id)
        as Hreq.
      rewrite Hrun in Hreq. simpl in Hreq.
      destruct (Hreq Hid) as [[H | H] | (item & c & t & Hi & Hf & Hp & Ht & Ho)].
      * discriminate H.
      * now left.
      * right. exists item, c, t. repeat split; auto; lia.
Qed.

(** The loader answers None exactly on a folder without channels.json. *)
Lemma loader_absent (s s' : state) :
  download_channels_list_from_drive E s = (Ret None, s') ->
  no_catalog s' /\ drive s' = drive s.
Proof.
  unfold download_channels_list_from_drive. exec_unfold.
  destruct (files_list_reply E (tick s)); simpl; [discriminate |].
  destruct (filter _ (drive s)) as [| item items] eqn:Hfilter; simpl.
  - intros [= <-]. simpl. split; [| reflexivity].
    intros f Hf Hname.
    pose proof (filter_nil_not_In _ _ Hfilter f Hf) as Hneq. simpl in Hneq.
    apply String.eqb_neq in Hneq. contradiction.
  - destruct (get_media_reply E (S (tick s)) (file_id item)) as [chunks r].
    unfold bind.
    match goal with |- context [for_each chunks ?b ?st] =>
      destruct (for_each chunks b st) as [[[] | e] s3] end; simpl;
      [destruct r; simpl |]; discriminate.
Qed.

Lemma loader_present (channels : list string) (s s' : state) :
  download_channels_list_from_drive E s = (Ret (Some channels), s') ->
  (exists f, In f (drive s) /\ file_name f = "channels.json") /\
  exists t i, snd (get_media_reply E t i) = inr channels.
Proof.
  unfold download_channels_list_from_drive. exec_unfold.
  destruct (files_list_reply E (tick s)); simpl; [discriminate |].
  destruct (filter _ (drive s)) as [| item items] eqn:Hfilter; simpl;
    [discriminate |].
  assert (Hitem : In item (drive s) /\ file_name item = "channels.json").
  { assert (Hin : In item (item :: items)) by now left.
    rewrite <- Hfilter in Hin. apply filter_In in Hin.
    destruct Hin as [Hin Hname]. now apply String.eqb_eq in Hname. }
  destruct (get_media_reply E (S (tick s)) (file_id item))
    as [chunks r] eqn:Hreply.
  unfold bind.
  match goal with |- context [for_each chunks ?b ?st] =>
    destruct (for_each chunks b st) as [[[] | e] s3] end; simpl;
    [| discriminate].
  destruct r as [e | channels']; simpl; [discriminate |].
  intros [= <- <-]. split; [eauto |].
  exists (S (tick s)), (file_id item). now rewrite Hreply.
Qed.

Lemma prelude_inv (r : outcome (option (list string))) (s s' : state) :
  prelude E s = (r, s') ->
  match r with
  | Ret c =>
      exists s0,
        (delete_old_videos E 14 ;; print_now E)%m s = (Ret tt, s0) /\
        download_channels_list_from_drive E s0 = (Ret c, s')
  | Raise _ => True
  end.
Proof.
  unfold prelude, bind.
  destruct (delete_old_videos E 14 s) as [[[] | e] s0];
    [| intros H; inversion H; exact I].
  destruct (print_now E s0) as [[[] | e] s0'];
    [| intros H; inversion H; exact I].
  intros Hload. destruct r; [| exact I]. eauto.
Qed.

Lemma prelude_absent (s s' : state) :
  prelude E s = (Ret None, s') -> no_catalog s'.
Proof.
  intros H. apply prelude_inv in H. destruct H as (s0 & _ & Hload).
  now apply loader_absent in Hload.
Qed.

Lemma prelude_present (channels : list string) (s s' : state) :
  prelude E s = (Ret (Some channels), s') ->
  ~ no_catalog s /\ exists t i, snd (get_media_reply E t i) = inr channels.
Proof.
  intros H. apply prelude_inv in H. destruct H as (s0 & Hsweep & Hload).
  apply loader_present in Hload. destruct Hload as [(f & Hf & Hname) Hmedia].
  split; [| exact Hmedia].
  intros Hno. apply (Hno f); [| exact Hname].
  assert (Hshrink : drive_shrinks s s0).
  { pose proof (stable_bind (R := drive_shrinks)
                  (delete_old_videos E 14) (fun _ => print_now E)) as Hb.
    specialize (Hb ltac:(stable_split;
                           first [ apply shrinks_emit | apply shrinks_next_tick
                                 | apply shrinks_filter ])
                   ltac:(intros ?; stable_split;
                           first [ apply shrinks_emit
                                 | apply shrinks_next_tick ]) s).
    now rewrite Hsweep in Hb. }
  now apply Hshrink.
Qed.

(** A run over a folder without channels.json: it does nothing beyond the
    sweep and the loader, and leaves the folder without channels.json. *)
Lemma run_without_catalog (s : state) :
  no_catalog s ->
  let s' := snd (main E (restart s)) in
  no_catalog s' /\ Forall prelude_event (log s') /\
  past_videos_json s' = past_videos_json s /\
  (forall r, fst (main E (restart s)) = Ret r ->
             In (Print "No channels found") (log s')).
Proof.
  intros Hno s'. subst s'.
  pose proof (main_cases (restart s)) as Hm. simpl in Hm.
  pose proof (prelude_quiet (restart s)) as (Hj & _ & l & Hl & Hq).
  pose proof (prelude_shrinks (restart s)) as Hshrink.
  simpl in Hj, Hl. rewrite app_nil_r in Hl.
  assert (Hno' : no_catalog (snd (prelude E (restart s)))).
  { intros f Hf. apply Hno. now apply Hshrink in Hf. }
  destruct (prelude E (restart s)) as [[[channels |] | e] s1] eqn:Hpre;
    simpl in *.
  - apply prelude_present in Hpre. destruct Hpre as [Hyes _].
    exfalso. apply Hyes. exact Hno.
  - rewrite Hm. simpl. repeat split; auto.
    constructor; [exact I | now rewrite Hl].
  - rewrite Hm. simpl. repeat split; auto.
    + now rewrite Hl.
    + intros r Hr. discriminate Hr.
Qed.

Lemma runs_without_catalog (n : nat) (s : state) :
  no_catalog s ->
  no_catalog (runs E n s) /\ past_videos_json (runs E n s) = past_videos_json s.
Proof.
  revert s. induction n as [| n IH]; intros s Hno; simpl; [auto |].
  destruct (run_without_catalog s Hno) as (Hno' & _ & Hj & _).
  destruct (IH _ Hno') as [Hn Hjn]. split; [exact Hn | congruence].
Qed.

Lemma sweep_now_inv (s s0 : state) :
  (delete_old_videos E 14 ;; print_now E)%m s = (Ret tt, s0) ->
  exists s00,
    delete_old_videos E 14 s = (Ret tt, s00) /\
    drive s0 = drive s00 /\ exists e, log s0 = e :: log s00.
Proof.
  unfold bind.
  destruct (delete_old_videos E 14 s) as [[[] | e] s00]; [| discriminate].
  unfold print_now. exec_unfold. intros [= <-]. simpl. eauto.
Qed.

(** C9, amended: the sweep decides on the creation time alone.  A file
    with another name and the same creation time meets the same fate; so
    the catalogue channels.json, once older than the threshold, is deleted
    by a sweep that completes, provided its deletion is accepted, and the
    run then finds no catalogue and does no synchronisation; and from a
    folder without channels.json every later run does the same. *)
Theorem catalog_swept_like_any_file :
  (forall days item name' s,
     let item' := mkFile (file_id item) name' (file_createdTime item) in
     let a := snd (delete_old_videos_item E days item s) in
     let b := snd (delete_old_videos_item E days item' s) in
     drive a = drive b /\
     (In (DriveDelete (file_id item)) (log a) <->
      In (DriveDelete (file_id item)) (log b))) /\
  (forall s f created s0,
     In f (drive s) ->
     file_name f = "channels.json" ->
     (forall g, In g (drive s) -> file_name g = "channels.json" ->
                file_id g = file_id f) ->
     fromisoformat E (drop_last (file_createdTime f)) = Some created ->
     (forall t, (clock E t - created > timedelta_days 14)%Z) ->
     (forall t, files_delete_reply E t (file_id f) = None) ->
     delete_old_videos E 14 (restart s) = (Ret tt, s0) ->
     let s' := snd (main E (restart s)) in
     In (DriveDelete (file_id f)) (log s') /\
     no_catalog s' /\
     Forall prelude_event (log s') /\
     past_videos_json s' = past_videos_json s /\
     (fst (main E (restart s)) = Ret tt ->
      In (Print "No channels found") (log s'))) /\
  (forall s,
     no_catalog s ->
     forall n,
       let s' := snd (main E (restart (runs E n s))) in
       no_catalog s' /\ Forall prelude_event (log s') /\
       past_videos_json s' = past_videos_json s /\
       (fst (main E (restart (runs E n s))) = Ret tt ->
        In (Print "No channels found") (log s'))).
Proof.
  split; [| split].
  - intros days item name' s item' a b. subst a b item'.
    unfold delete_old_videos_item, is_older_than_days. simpl.
    destruct (fromisoformat E (drop_last (file_createdTime item)));
      [| simpl; tauto].
    exec; tauto.
  - intros s f created s0 Hin Hname Huniq Hparse Hold Hok Hsweep s'. subst s'.
    pose proof (sweep_removes 14 f created (restart s) s0
                  Hparse Hold Hok Hin Hsweep) as [Hgone Hreq].
    assert (Hshrink : drive_shrinks (restart s) s0).
    { pose proof (stable_bind (R := drive_shrinks)
                    (files_list E None)
                    (fun items =>
                       for_each items (delete_old_videos_item E 14))) as Hb.
      specialize (Hb ltac:(stable_split;
                             first [ apply shrinks_emit
                                   | apply shrinks_next_tick ])
                     ltac:(intros ?; apply stable_for_each; intros ? _;
                           apply delete_old_videos_item_shrinks)
                     (restart s)).
      unfold delete_old_videos in Hsweep. now rewrite Hsweep in Hb. }
    assert (Hno0 : no_catalog s0).
    { intros g Hg Hgname.
      apply (Hgone g Hg). apply Huniq; [| exact Hgname].
      now apply Hshrink in Hg. }
    pose (rest := (print_now E ;; download_channels_list_from_drive E)%m).
    assert (Hpre : prelude E (restart s) = rest s0).
    { unfold prelude, rest, bind. now rewrite Hsweep. }
    assert (Hrest_shrinks : drive_shrinks s0 (snd (rest s0))).
    { apply (stable_bind (R := drive_shrinks));
        [| intros ?];
        stable_split;
        first [ apply shrinks_emit | apply shrinks_next_tick
              | apply shrinks_filter ]. }
    assert (Hrest_quiet : quiet prelude_event s0 (snd (rest s0))).
    { apply (stable_bind (R := quiet prelude_event));
        [apply print_now_quiet
        | intros ?; apply download_channels_list_quiet]. }
    destruct Hrest_quiet as (_ & _ & l1 & Hl1 & _).
    assert (Hno1 : no_catalog (snd (rest s0))).
    { intros g Hg. apply Hno0. now apply Hrest_shrinks in Hg. }
    assert (Hreq1 : In (DriveDelete (file_id f)) (log (snd (rest s0)))).
    { rewrite Hl1. apply in_or_app. now right. }
    pose proof (main_cases (restart s)) as Hm. simpl in Hm.
    pose proof (prelude_quiet (restart s)) as (Hj & _ & l & Hl & Hq).
    simpl in Hj, Hl. rewrite app_nil_r in Hl.
    rewrite Hpre in Hm, Hj, Hl.
    destruct (rest s0) as [[c | e] s1] eqn:Hrest; simpl in *.
    + destruct c as [channels |].
      * exfalso.
        assert (Hp : prelude E (restart s) = (Ret (Some channels), s1))
          by congruence.
        pose proof (prelude_inv _ _ _ Hp) as (s0' & Hsn & Hload).
        apply sweep_now_inv in Hsn.
        destruct Hsn as (s00 & Hsweep' & Hdrive & _).
        rewrite Hsweep in Hsweep'. injection Hsweep' as <-.
        apply loader_present in Hload.
        destruct Hload as [(g & Hg & Hgname) _].
        rewrite Hdrive in Hg. exact (Hno0 g Hg Hgname).
      * rewrite Hm. simpl. repeat split; auto.
        constructor; [exact I | now rewrite Hl].
    + rewrite Hm. simpl. repeat split; auto.
      * now rewrite Hl.
      * intros Hr. discriminate Hr.
  - intros s Hno n s'. subst s'.
    destruct (runs_without_catalog n s Hno) as [Hn Hjn].
    destruct (run_without_catalog _ Hn) as (Hno' & Hlog & Hj & Hline).
    split; [exact Hno' |]. split; [exact Hlog |].
    split; [congruence | apply Hline].
Qed.

(** ** Two runs in a row *)

Lemma resolution_at_indep (t t' : nat) (c : string) (n : nat) :
  (forall t t' c, channels_list_reply E t c = channels_list_reply E t' c) ->
  (forall t t' p n,
     playlist_items_reply E t p n = playlist_items_reply E t' p n) ->
  resolution_at E t c n = resolution_at E t' c n.
Proof.
  intros Hch Hpl. unfold resolution_at.
  rewrite (Hch t t' c).
  destruct (channels_list_reply E t' c) as [e | [| uploads others]];
    try reflexivity.
  now rewrite (Hpl (S t) (S t') uploads n).
Qed.

Lemma prelude_event_no_transfer (e : event) : prelude_event e -> no_transfer e.
Proof. destruct e; simpl; intros H; try reflexivity; contradiction. Qed.

Lemma resolver_event_no_transfer (e : event) :
  resolver_event e -> no_transfer e.
Proof. destruct e; simpl; intros H; try reflexivity; contradiction. Qed.

(** After the loop over the videos, each of them is in the history list
    or has had its transfer started. *)
Lemma videos_loop_covers (vs : list (string * string)) (s : state)
    (u t : string) :
  In (u, t) vs ->
  let s' := snd (for_each vs (main_video E) s) in
  In u (past_videos s') \/ In (Streams u) (log s').
Proof.
  revert s. induction vs as [| v rest IH]; intros s Hin; [destruct Hin |].
  cbv zeta. rewrite for_each_cons by apply main_video_returns.
  destruct Hin as [-> | Hin]; [| now apply IH].
  pose proof (stable_for_each (R := sync_rel) rest (main_video E)
                (fun v _ => main_video_sync v)
                (snd (main_video E (u, t) s)))
    as (_ & [added Hadd] & [l Hl]).
  rewrite Hadd, Hl.
  destruct (main_video_cases u t s) as (_ & _ & Hcases).
  destruct Hcases as [(Hu & Hp & _)
                     | [(_ & _ & e & l' & Hlog & _) | (_ & Hp & _)]].
  - left. rewrite Hp. apply in_or_app. now left.
  - right. rewrite Hlog. apply in_or_app. right. right.
    apply in_or_app. right. now left.
  - left. rewrite Hp. apply in_or_app. left. apply in_or_app. right.
    now left.
Qed.

Lemma channels_loop_covers (channels : list string) (s : state)
    (c u t : string) (vs : list (string * string)) (k : nat) :
  (forall t t' c, channels_list_reply E t c = channels_list_reply E t' c) ->
  (forall t t' p n,
     playlist_items_reply E t p n = playlist_items_reply E t' p n) ->
  In c channels ->
  resolution_at E k c LAST_VIDEO_N = Videos vs ->
  In (u, t) vs ->
  let s' := snd (for_each channels (main_channel E) s) in
  In u (past_videos s') \/ In (Streams u) (log s').
Proof.
  intros Hch Hpl Hc Hres Hin. revert s.
  induction channels as [| c0 rest IH]; intros s; [destruct Hc |].
  cbv zeta. rewrite for_each_cons by apply main_channel_returns.
  destruct Hc as [-> | Hc]; [| now apply IH].
  destruct (main_channels_sync rest (snd (main_channel E c s)))
    as (_ & [added Hadd] & [l Hl]).
  rewrite Hadd, Hl.
  pose proof (main_channel_cases c s) as Hcs. simpl in Hcs.
  rewrite get_latest_video_url_result in Hcs.
  rewrite (resolution_at_indep (tick s) k c LAST_VIDEO_N Hch Hpl), Hres
    in Hcs.
  rewrite Hcs.
  destruct (videos_loop_covers vs
              (snd (get_latest_video_url E c LAST_VIDEO_N s)) u t Hin)
    as [Hp | Hs].
  - left. apply in_or_app. now left.
  - right. apply in_or_app. now right.
Qed.

(** When every video is in the history list already, the loops transfer
    nothing and leave the list as it is. *)
Lemma videos_loop_skips (vs : list (string * string)) (s : state) :
  (forall u t, In (u, t) vs -> In u (past_videos s)) ->
  quiet no_transfer s (snd (for_each vs (main_video E) s)).
Proof.
  revert s. induction vs as [| [u t] rest IH]; intros s Hall.
  - simpl. reflexivity.
  - rewrite for_each_cons by apply main_video_returns.
    assert (Hskip : main_video E (u, t) s = print ("Skipping: " ++ t) s).
    { unfold main_video, bind, get_past_videos.
      replace (contains (past_videos s) u) with true; [reflexivity |].
      symmetry. apply contains_In. apply (Hall u t). now left. }
    rewrite Hskip. etransitivity.
    + apply (quiet_emit no_transfer (Print ("Skipping: " ++ t))). reflexivity.
    + apply IH. intros u' t' Hin. simpl. apply (Hall u' t'). now right.
Qed.

Lemma channels_loop_skips (channels : list string) (s : state) :
  (forall c k vs u t,
     In c channels -> resolution_at E k c LAST_VIDEO_N = Videos vs ->
     In (u, t) vs -> In u (past_videos s)) ->
  quiet no_transfer s (snd (for_each channels (main_channel E) s)).
Proof.
  revert s. induction channels as [| c rest IH]; intros s Hall.
  - simpl. reflexivity.
  - rewrite for_each_cons by apply main_channel_returns.
    assert (Hc : quiet no_transfer s (snd (main_channel E c s))).
    { pose proof (main_channel_cases c s) as Hcs. simpl in Hcs.
      pose proof (get_latest_video_url_quiet c LAST_VIDEO_N s) as Hq.
      pose proof (get_latest_video_url_result c LAST_VIDEO_N s) as Hr.
      destruct (get_latest_video_url E c LAST_VIDEO_N s)
        as [[[vs | msg] | e] s1]; simpl in *; [| | contradiction];
        rewrite Hcs;
        (etransitivity;
         [exact (quiet_weaken _ _ _ _ resolver_event_no_transfer Hq) |]).
      - apply videos_loop_skips. intros u t Hin.
        destruct Hq as (_ & -> & _).
        apply (Hall c (tick s) vs u t); [now left | congruence | exact Hin].
      - apply (quiet_emit no_transfer). reflexivity. }
    etransitivity; [exact Hc |].
    apply IH. intros c' k vs u t Hin Hres Hv.
    destruct Hc as (_ & -> & _). apply (Hall c' k vs u t); auto.
    now right.
Qed.

(** C2: when between two runs the replies of the video provider and the
    catalogue do not change, and the first run returned with every URL
    whose transfer it started in the history it wrote, the second run asks
    nothing of the transfer pipeline and leaves in the history file the
    very list that the first run left. *)
Theorem second_run_idempotent (s s1 : state) :
  (forall t t' c, channels_list_reply E t c = channels_list_reply E t' c) ->
  (forall t t' p n,
     playlist_items_reply E t p n = playlist_items_reply E t' p n) ->
  (forall t t' i i',
     snd (get_media_reply E t i) = snd (get_media_reply E t' i')) ->
  main E (restart s) = (Ret tt, s1) ->
  (forall u, In (Streams u) (log s1) ->
             exists h1, past_videos_json s1 = Some h1 /\ In u h1) ->
  let s2 := snd (main E (restart s1)) in
  (forall e, In e (log s2) -> transfer_event e = false) /\
  past_videos_json s2 = past_videos_json s1.
Proof.
  intros Hch Hpl Hmedia Hrun1 Hall s2. subst s2.
  rewrite <- Forall_forall.
  pose proof (main_cases (restart s)) as Hm1. simpl in Hm1.
  destruct (prelude E (restart s)) as [[[channels |] | e] sp1] eqn:Hpre1;
    simpl in Hm1.
  - (* the first run synchronised the channels of the catalogue *)
    destruct (past_videos_json sp1) as [h |] eqn:Hfile1;
      [| destruct Hm1 as [e Hm1]; rewrite Hm1 in Hrun1; discriminate Hrun1].
    rewrite Hm1 in Hrun1. unfold dump_past_videos in Hrun1.
    set (sL := snd (for_each channels (main_channel E) (loaded h sp1))) in *.
    injection Hrun1 as Hs1.
    assert (Hfile : past_videos_json s1 = Some (past_videos sL))
      by (now rewrite <- Hs1).
    assert (Hlog : log s1
                   = OpenWrite "past_videos.json" (past_videos sL) :: log sL)
      by (now rewrite <- Hs1).
    assert (Hcov : forall c k vs u t,
               In c channels -> resolution_at E k c LAST_VIDEO_N = Videos vs ->
               In (u, t) vs -> In u (past_videos sL)).
    { intros c k vs u t Hc Hres Hin.
      destruct (channels_loop_covers channels (loaded h sp1) c u t vs k
                  Hch Hpl Hc Hres Hin) as [Hp | Hs]; [exact Hp |].
      fold sL in Hs.
      destruct (Hall u) as (h1 & Hh1 & Hu).
      - rewrite Hlog. now right.
      - rewrite Hfile in Hh1. now injection Hh1 as <-. }
    pose proof (main_cases (restart s1)) as Hm2. simpl in Hm2.
    pose proof (prelude_quiet (restart s1)) as (Hj & _ & l & Hl & Hq).
    simpl in Hj, Hl. rewrite app_nil_r in Hl.
    apply (Forall_impl _ prelude_event_no_transfer) in Hq.
    destruct (prelude E (restart s1)) as [[[channels2 |] | e] sp2] eqn:Hpre2;
      simpl in *.
    + apply prelude_present in Hpre1, Hpre2.
      destruct Hpre1 as (_ & t1 & i1 & Hc1).
      destruct Hpre2 as (_ & t2 & i2 & Hc2).
      rewrite (Hmedia t1 t2 i1 i2), Hc2 in Hc1. injection Hc1 as ->.
      rewrite Hj, Hfile in Hm2. rewrite Hm2.
      pose proof (channels_loop_skips channels (loaded (past_videos sL) sp2)
                    Hcov) as (_ & Hp & l' & Hl' & Hq').
      simpl in Hp, Hl'. simpl. rewrite Hp, Hl', Hfile. split; [| reflexivity].
      constructor; [reflexivity |].
      apply Forall_app. split; [exact Hq' |].
      constructor; [reflexivity | now rewrite Hl].
    + rewrite Hm2. simpl. split; [| exact Hj].
      constructor; [reflexivity | now rewrite Hl].
    + rewrite Hm2. simpl. split; [now rewrite Hl | exact Hj].
  - (* the first run found no catalogue *)
    rewrite Hm1 in Hrun1. injection Hrun1 as Hs1.
    apply prelude_absent in Hpre1.
    assert (Hno : no_catalog s1) by (now rewrite <- Hs1).
    destruct (run_without_catalog s1 Hno) as (_ & Hlog & Hj & _).
    split; [| exact Hj].
    exact (Forall_impl _ prelude_event_no_transfer Hlog).
  - rewrite Hm1 in Hrun1. discriminate Hrun1.
Qed.

(** * Beyond the claims *)

(** ** Deleting one file *)

(** X1: [delete_video_from_drive] swallows an HttpError of the delete
    request, printing it and leaving the folder as it was; any other
    exception of the request leaves the function; an accepted delete takes
    the file out of the folder. *)
Theorem delete_video_from_drive_outcomes (video_id : string) (s : state) :
  let r := delete_video_from_drive E video_id s in
  match files_delete_reply E (tick s) video_id with
  | None =>
      fst r = Ret tt /\
      drive (snd r)
      = filter (fun f => negb (file_id f =? video_id)%string) (drive s) /\
      log (snd r) = Print ("Deleted video from Drive: " ++ video_id)
                    :: DriveDelete video_id :: log s
  | Some e =>
      drive (snd r) = drive s /\
      if is_HttpError e
      then fst r = Ret tt /\
           log (snd r)
           = Print ("Error deleting video from Drive: " ++ exn_str e)
             :: DriveDelete video_id :: log s
      else fst r = Raise e /\ log (snd r) = DriveDelete video_id :: log s
  end.
Proof.
  unfold delete_video_from_drive. exec_unfold.
  destruct (files_delete_reply E (tick s) video_id) as [e |]; simpl.
  - destruct (is_HttpError e); simpl; auto.
  - auto.
Qed.

(** ** When the sweep returns *)

Lemma delete_old_videos_item_returns (days : Z) (item : drive_file)
    (s : state) :
  fromisoformat E (drop_last (file_createdTime item)) <> None ->
  (forall t id e, files_delete_reply E t id = Some e -> is_HttpError e = true) ->
  fst (delete_old_videos_item E days item s) = Ret tt.
Proof.
  intros Hparse Hhttp.
  unfold delete_old_videos_item, is_older_than_days.
  destruct (fromisoformat E (drop_last (file_createdTime item)))
    as [created |]; [| contradiction].
  exec_unfold.
  destruct (created <? clock E (tick s) - timedelta_days days)%Z; simpl;
    [| reflexivity].
  destruct (files_delete_reply E (S (tick s)) (file_id item)) as [e |] eqn:Hr;
    simpl; [| reflexivity].
  now rewrite (Hhttp _ _ _ Hr).
Qed.

Lemma sweep_loop_returns (days : Z) (items : list drive_file) (s : state) :
  (forall item, In item items ->
                fromisoformat E (drop_last (file_createdTime item)) <> None) ->
  (forall t id e, files_delete_reply E t id = Some e -> is_HttpError e = true) ->
  fst (for_each items (delete_old_videos_item E days) s) = Ret tt.
Proof.
  intros Hparse Hhttp. revert s.
  induction items as [| x rest IH]; intros s; [reflexivity |].
  rewrite for_each_cons.
  - apply IH. intros item Hin. apply Hparse. now right.
  - apply delete_old_videos_item_returns; [| exact Hhttp].
    apply Hparse. now left.
Qed.

Lemma sweep_loop_parsed (days : Z) (items : list drive_file) (s s' : state) :
  for_each items (delete_old_videos_item E days) s = (Ret tt, s') ->
  forall item, In item items ->
               fromisoformat E (drop_last (file_createdTime item)) <> None.
Proof.
  revert s. induction items as [| x rest IH]; intros s Hrun item Hin;
    [destruct Hin |].
  apply for_each_cons_inv in Hrun. destruct Hrun as (s1 & Hx & Hrest).
  destruct Hin as [<- | Hin]; [| exact (IH s1 Hrest item Hin)].
  intros Hnone. revert Hx.
  unfold delete_old_videos_item, is_older_than_days. rewrite Hnone.
  unfold bind, raise. discriminate.
Qed.

(** X2: the sweep returns normally whenever the listing is answered, the
    age test of line 47 returns for every file of the folder and the
    delete requests fail with nothing but HttpError: a refused deletion
    does not stop the sweep. *)
Theorem sweep_returns (days : Z) (s : state) :
  files_list_reply E (tick s) = None ->
  (forall item s0,
     In item (drive s) ->
     exists older,
       fst (is_older_than_days E (file_createdTime item) days s0)
       = Ret older) ->
  (forall t id e, files_delete_reply E t id = Some e -> is_HttpError e = true) ->
  fst (delete_old_videos E days s) = Ret tt.
Proof.
  intros Hlist Hage Hhttp.
  assert (Hparse : forall item,
             In item (drive s) ->
             fromisoformat E (drop_last (file_createdTime item)) <> None).
  { intros item Hin Hnone. destruct (Hage item s Hin) as [older Holder].
    unfold is_older_than_days in Holder. rewrite Hnone in Holder.
    discriminate Holder. }
  unfold delete_old_videos, files_list, bind, emit, next_tick, get_drive,
    of_option, ret, raise.
  simpl. rewrite Hlist. simpl.
  apply sweep_loop_returns; assumption.
Qed.

Lemma main_stops_in_sweep (s s' : state) (e : exn) :
  delete_old_videos E 14 s = (Raise e, s') -> main E s = (Raise e, s').
Proof. intros H. unfold main, bind. now rewrite H. Qed.

(** X3: a file of the folder whose creation time [fromisoformat] rejects
    aborts the run inside the sweep: [main] raises and stops in the state
    the sweep left, with the history file untouched and no request beyond
    those of the sweep. *)
Theorem unparsable_creation_time_aborts_run (s : state) (item : drive_file) :
  In item (drive s) ->
  fromisoformat E (drop_last (file_createdTime item)) = None ->
  exists e,
    main E (restart s) = (Raise e, snd (delete_old_videos E 14 (restart s))) /\
    past_videos_json (snd (main E (restart s))) = past_videos_json s /\
    Forall prelude_event (log (snd (main E (restart s)))).
Proof.
  intros Hin Hnone.
  destruct (delete_old_videos E 14 (restart s)) as [[[] | e] s'] eqn:Hsweep.
  - exfalso. revert Hsweep.
    unfold delete_old_videos, files_list, bind, emit, next_tick, get_drive,
      of_option, ret, raise.
    simpl. destruct (files_list_reply E (tick s)); simpl; [discriminate |].
    intros Hrun.
    exact (sweep_loop_parsed 14 (drive s) _ s' Hrun item Hin Hnone).
  - exists e. rewrite (main_stops_in_sweep _ _ _ Hsweep). simpl.
    pose proof (delete_old_videos_quiet 14 (restart s)) as (Hj & _ & l & Hl & Hq).
    rewrite Hsweep in Hj, Hl. simpl in Hj, Hl. rewrite app_nil_r in Hl.
    repeat split; auto. now rewrite Hl.
Qed.

(** ** What the sweep leaves alone *)

#[local] Instance keeps_undeleted_preorder : PreOrder keeps_undeleted.
Proof.
  split.
  - intros s. split; [reflexivity | auto].
  - intros a b c [Hl1 H1] [Hl2 H2]. split; [etransitivity; eassumption |].
    intros f Hf Hno. apply H2; [| exact Hno].
    apply H1; [exact Hf |].
    destruct Hl2 as [l ->] in Hno. intros Hb. apply Hno.
    apply in_or_app. now right.
Qed.

Lemma delete_old_videos_item_keeps (days : Z) (item : drive_file) :
  stable keeps_undeleted (delete_old_videos_item E days item).
Proof.
  intros s. unfold delete_old_videos_item, is_older_than_days.
  destruct (fromisoformat E (drop_last (file_createdTime item)));
    [| simpl; reflexivity].
  exec; unfold keeps_undeleted, log_grows; simpl;
    (split; [exists_prefix || (now exists []) |]); auto.
  intros f Hf Hno. apply filter_In. split; [exact Hf |].
  apply negb_true_iff, String.eqb_neq. intros Heq. apply Hno.
  rewrite Heq. auto.
Qed.

Lemma sweep_keeps (days : Z) : stable keeps_undeleted (delete_old_videos E days).
Proof.
  unfold delete_old_videos.
  apply stable_bind.
  - intros s. unfold files_list.
    exec; unfold keeps_undeleted, log_grows; simpl;
      (split; [exists_prefix |]); auto.
  - intros items. apply stable_for_each. intros item _.
    apply delete_old_videos_item_keeps.
Qed.

Lemma sweep_quiet_events (days : Z) :
  stable (quiet sweep_event) (delete_old_videos E days).
Proof. quiet_solve. Qed.

Lemma sweep_requests (days : Z) (s : state) (id : string) :
  In (DriveDelete id) (log (snd (delete_old_videos E days s))) ->
  In (DriveDelete id) (log s) \/
  exists item created t,
    In item (drive s) /\ file_id item = id /\
    fromisoformat E (drop_last (file_createdTime item)) = Some created /\
    (clock E t - created > timedelta_days days)%Z.
Proof.
  unfold delete_old_videos, files_list, bind, emit, next_tick, get_drive,
    of_option, ret, raise.
  simpl. destruct (files_list_reply E (tick s)); simpl.
  - intros [H | H]; [discriminate H | now left].
  - intros H. apply sweep_loop_requests in H. simpl in H.
    destruct H as [[H | H] | (item & c & t & Hi & Hid & Hp & _ & Ho)].
    + discriminate H.
    + now left.
    + right. exists item, c, t. auto.
Qed.

Lemma NoDup_map_eq {A B} (g : A -> B) (l : list A) (a b : A) :
  NoDup (map g l) -> In a l -> In b l -> g a = g b -> a = b.
Proof.
  induction l as [| x rest IH]; intros Hnd Ha Hb Heq; [destruct Ha |].
  simpl in Hnd. inversion Hnd as [| ? ? Hx Hrest]. subst.
  destruct Ha as [-> | Ha], Hb as [-> | Hb]; auto.
  - exfalso. apply Hx. rewrite Heq. now apply in_map.
  - exfalso. apply Hx. rewrite <- Heq. now apply in_map.
Qed.

(** X4: the sweep never adds a file to the folder, never touches the
    history, in the file or in memory, and sends nothing but its listing
    and its delete requests; and with identifiers that are unique in the
    folder, a file that is not older than the threshold at any time is
    still in the folder after the sweep. *)
Theorem sweep_frame (days : Z) (s : state) :
  let s' := snd (delete_old_videos E days s) in
  (forall f, In f (drive s') -> In f (drive s)) /\
  past_videos_json s' = past_videos_json s /\
  past_videos s' = past_videos s /\
  (exists l, log s' = l ++ log s /\ Forall sweep_event l) /\
  (NoDup (map file_id (drive s)) ->
   forall f created,
     In f (drive s) ->
     ~ In (DriveDelete (file_id f)) (log s) ->
     fromisoformat E (drop_last (file_createdTime f)) = Some created ->
     (forall t, (clock E t - created <= timedelta_days days)%Z) ->
     In f (drive s')).
Proof.
  intros s'. subst s'.
  pose proof (sweep_quiet_events days s) as (Hj & Hp & Hl).
  assert (Hshrink : drive_shrinks s (snd (delete_old_videos E days s))).
  { unfold delete_old_videos.
    refine (stable_bind (R := drive_shrinks) _ _ _ _ s).
    - stable_split; first [ apply shrinks_emit | apply shrinks_next_tick ].
    - intros items. apply stable_for_each. intros item _.
      apply delete_old_videos_item_shrinks. }
  split; [exact Hshrink |]. split; [exact Hj |]. split; [exact Hp |].
  split; [exact Hl |].
  intros Hnodup f created Hf Hfresh Hparse Hyoung.
  destruct (sweep_keeps days s) as [_ Hkeep].
  apply Hkeep; [exact Hf |]. intros Hreq.
  destruct (sweep_requests days s _ Hreq)
    as [H0 | (item & c & t & Hi & Hid & Hpi & Hold)]; [auto |].
  assert (item = f) by (apply (NoDup_map_eq file_id (drive s)); auto).
  subst item. rewrite Hparse in Hpi. injection Hpi as <-.
  specialize (Hyoung t). lia.
Qed.

(** ** The last character of the creation time *)

Lemma drop_last_snoc (d : string) (c : ascii) :
  drop_last (d ++ String c EmptyString) = d.
Proof.
  induction d as [| a d IH]; [reflexivity |].
  unfold String.append; fold String.append. simpl.
  rewrite IH. destruct d; reflexivity.
Qed.

(** X5: line 23 drops the last character of the creation time whatever it
    is, without looking at it: the text before it is what is parsed, so two
    creation times that differ in their last character only are compared
    alike. *)
Theorem is_older_than_days_drops_last_char (d : string) (c c' : ascii)
    (days : Z) (s : state) :
  drop_last (d ++ String c EmptyString) = d /\
  is_older_than_days E (d ++ String c EmptyString) days s
  = is_older_than_days E (d ++ String c' EmptyString) days s /\
  (fromisoformat E d = None ->
   exists e, is_older_than_days E (d ++ String c EmptyString) days s
             = (Raise e, s) /\ exn_cls e = ValueError).
Proof.
  split; [apply drop_last_snoc |]. split.
  - unfold is_older_than_days. now rewrite !drop_last_snoc.
  - intros Hnone. unfold is_older_than_days.
    rewrite drop_last_snoc, Hnone. eexists. split; reflexivity.
Qed.


(** ** More on the resolver *)

Lemma get_latest_video_url_run (c : string) (n : nat) (s : state) :
  let s' := snd (get_latest_video_url E c n s) in
  drive s' = drive s /\
  ((tick s' = tick s /\ log s' = log s /\ c = "") \/
   (tick s' = S (tick s) /\ log s' = ChannelsList c :: log s /\
    (forall uploads others,
       channels_list_reply E (tick s) c <> inr (uploads :: others))) \/
   (exists uploads others,
      channels_list_reply E (tick s) c = inr (uploads :: others) /\
      tick s' = S (S (tick s)) /\
      log s' = PlaylistItems uploads n :: ChannelsList c :: log s)).
Proof.
  unfold get_latest_video_url.
  destruct (c =? "")%string eqn:Hc.
  - apply String.eqb_eq in Hc. simpl. auto.
  - exec_unfold.
    destruct (channels_list_reply E (tick s) c) as [e | [| uploads others]];
      simpl.
    + destruct (is_HttpError e); simpl; split; auto;
        right; left; repeat split; auto; discriminate.
    + split; auto. right. left. repeat split; auto. discriminate.
    + destruct (playlist_items_reply E (S (tick s)) uploads n)
        as [e | [| it items]]; simpl.
      * destruct (is_HttpError e); simpl; split; auto;
          right; right; exists uploads, others; auto.
      * split; auto. right. right. exists uploads, others. auto.
      * rewrite extract_videos_spec. cbn [List.length].
        destruct (n <=? S (List.length items)); simpl; split; auto;
          right; right; exists uploads, others; auto.
Qed.

(** X6: a channel whose uploads playlist answers with fewer items than
    asked for is not resolved at all: line 105 raises IndexError, which the
    resolver turns into its error tuple, and [main] then skips the channel
    without transferring any of the items there were. *)
Theorem short_playlist_skips_channel (c uploads : string)
    (others : list string) (items : list playlist_item) (s : state) :
  c <> "" ->
  channels_list_reply E (tick s) c = inr (uploads :: others) ->
  playlist_items_reply E (S (tick s)) uploads LAST_VIDEO_N = inr items ->
  items <> [] ->
  List.length items < LAST_VIDEO_N ->
  fst (get_latest_video_url E c LAST_VIDEO_N s)
  = Ret (NoneAnd ("An unexpected error occurred: "
                  ++ "list index out of range")) /\
  log (snd (main_channel E c s))
  = Print "Error: cannot unpack non-iterable NoneType object"
    :: PlaylistItems uploads LAST_VIDEO_N :: ChannelsList c :: log s /\
  past_videos (snd (main_channel E c s)) = past_videos s /\
  drive (snd (main_channel E c s)) = drive s.
Proof.
  intros Hc Hch Hpl Hne Hshort.
  assert (Hres : fst (get_latest_video_url E c LAST_VIDEO_N s)
                 = Ret (NoneAnd ("An unexpected error occurred: "
                                 ++ "list index out of range"))).
  { rewrite get_latest_video_url_result. unfold resolution_at.
    apply String.eqb_neq in Hc. rewrite Hc, Hch, Hpl.
    destruct items as [| it rest]; [contradiction |].
    replace (LAST_VIDEO_N <=? List.length (it :: rest)) with false
      by (symmetry; apply Nat.leb_gt; exact Hshort).
    reflexivity. }
  split; [exact Hres |].
  pose proof (main_channel_cases c s) as Hcases. simpl in Hcases.
  rewrite Hres in Hcases. rewrite Hcases.
  pose proof (get_latest_video_url_quiet c LAST_VIDEO_N s) as (_ & Hp & _).
  destruct (get_latest_video_url_run c LAST_VIDEO_N s)
    as (Hd & [(_ & _ & Hempty) | [(_ & _ & Hnot) | (u' & o' & Hch' & _ & Hl)]]).
  - contradiction.
  - exfalso. exact (Hnot _ _ Hch).
  - rewrite Hch in Hch'. injection Hch' as <- <-.
    simpl. rewrite Hl. auto.
Qed.

(** X7: the resolver turns every failure of the provider into its error
    tuple and never raises: an HttpError gives the message API Error, any
    other exception the message An unexpected error occurred; a failed
    channel request is not followed by a playlist request, and an empty
    channel identifier is answered without any request. *)
Theorem resolver_failure_messages (c : string) (n : nat) (s : state) :
  let failed (e : exn) :=
    if is_HttpError e
    then NoneAnd ("API Error: " ++ exn_str e)
    else NoneAnd ("An unexpected error occurred: " ++ exn_str e) in
  (c = "" ->
   get_latest_video_url E c n s
   = (Ret (NoneAnd "Could not extract channel identifier from URL"), s)) /\
  (c <> "" ->
   forall e,
     channels_list_reply E (tick s) c = inl e ->
     fst (get_latest_video_url E c n s) = Ret (failed e) /\
     log (snd (get_latest_video_url E c n s)) = ChannelsList c :: log s) /\
  (c <> "" ->
   forall uploads others e,
     channels_list_reply E (tick s) c = inr (uploads :: others) ->
     playlist_items_reply E (S (tick s)) uploads n = inl e ->
     fst (get_latest_video_url E c n s) = Ret (failed e)).
Proof.
  intros failed. split; [| split].
  - intros ->. reflexivity.
  - intros Hc e Hch. apply String.eqb_neq in Hc.
    unfold get_latest_video_url. rewrite Hc. exec_unfold. rewrite Hch.
    subst failed. simpl. destruct (is_HttpError e); auto.
  - intros Hc uploads others e Hch Hpl. apply String.eqb_neq in Hc.
    rewrite get_latest_video_url_result. unfold resolution_at.
    now rewrite Hc, Hch, Hpl.
Qed.

(** X8: resolving a channel costs at most two requests to the provider,
    the playlist request coming only after a channel request that found
    the channel; it leaves the folder and the history alone; and a list of
    videos it returns has exactly [n] entries. *)
Theorem resolver_budget (c : string) (n : nat) (s : state) :
  let s' := snd (get_latest_video_url E c n s) in
  tick s <= tick s' <= tick s + 2 /\
  drive s' = drive s /\
  past_videos s' = past_videos s /\
  past_videos_json s' = past_videos_json s /\
  (log s' = log s \/
   log s' = ChannelsList c :: log s \/
   exists uploads others,
     channels_list_reply E (tick s) c = inr (uploads :: others) /\
     log s' = PlaylistItems uploads n :: ChannelsList c :: log s) /\
  (forall vs,
     fst (get_latest_video_url E c n s) = Ret (Videos vs) ->
     List.length vs = n).
Proof.
  intros s'. subst s'.
  pose proof (get_latest_video_url_quiet c n s) as (Hj & Hp & _).
  destruct (get_latest_video_url_run c n s)
    as (Hd & [(Ht & Hl & _) | [(Ht & Hl & _) | (u & o & Hch & Ht & Hl)]]);
    (split; [lia |]); (split; [exact Hd |]); (split; [exact Hp |]);
    (split; [exact Hj |]); (split; [eauto 6 |]).
  all: intros vs; rewrite get_latest_video_url_result; unfold resolution_at;
    destruct (c =? "")%string; [discriminate |];
    destruct (channels_list_reply E (tick s) c) as [e | [| uploads others]];
    [destruct (is_HttpError e); discriminate | discriminate |];
    destruct (playlist_items_reply E (S (tick s)) uploads n)
      as [e | [| it items]];
    [destruct (is_HttpError e); discriminate | discriminate |];
    destruct (n <=? List.length (it :: items)) eqn:Hn; [| discriminate];
    intros [= <-]; apply Nat.leb_le in Hn;
    rewrite length_map, length_firstn; lia.
Qed.

(** ** More on the download *)

Lemma select_stream_Some (offered : list stream) (st : stream) :
  select_stream offered = Some st ->
  In st (filter has_resolution (filter progressive_mp4 offered)).
Proof.
  unfold select_stream.
  destruct (first (filter res_480p
                     (order_by_resolution (filter progressive_mp4 offered))))
    as [st' |] eqn:H480.
  - intros [= <-]. apply first_In, filter_In in H480.
    now apply (proj1 (order_by_resolution_In _ _)).
  - intros Hfirst. apply first_In in Hfirst.
    now apply (proj1 (order_by_resolution_In _ _)).
Qed.

Lemma select_stream_None (offered : list stream) :
  select_stream offered = None <->
  filter has_resolution (filter progressive_mp4 offered) = [].
Proof.
  split.
  - unfold select_stream.
    destruct (first (filter res_480p
                       (order_by_resolution
                          (filter progressive_mp4 offered))));
      [discriminate |].
    intros Hnone. now apply first_None, order_by_resolution_nil in Hnone.
  - intros Hel. apply order_by_resolution_nil in Hel.
    unfold select_stream. rewrite Hel. reflexivity.
Qed.

Lemma select_stream_attributes (offered : list stream) (st : stream) :
  select_stream offered = Some st ->
  In st offered /\ is_progressive st = true /\ subtype st = "mp4" /\
  resolution st <> None.
Proof.
  intros Hsel. apply select_stream_Some, filter_In in Hsel.
  destruct Hsel as [Hin Hlabel]. apply filter_In in Hin.
  destruct Hin as [Hin Hp]. unfold progressive_mp4 in Hp.
  apply andb_true_iff in Hp. destruct Hp as [Hp Hm].
  apply String.eqb_eq in Hm. unfold has_resolution in Hlabel.
  repeat split; auto. destruct (resolution st); [discriminate | discriminate].
Qed.

(** X9: the selection returns nothing exactly when no progressive mp4
    stream that carries a resolution label is offered, and a stream it
    returns is one of those offered, progressive, of container mp4 and
    labelled: a video-only, webm or unlabelled stream is never selected. *)
Theorem select_stream_eligible (offered : list stream) :
  (select_stream offered = None <->
   filter has_resolution (filter progressive_mp4 offered) = []) /\
  (forall st,
     select_stream offered = Some st ->
     In st offered /\ is_progressive st = true /\ subtype st = "mp4" /\
     resolution st <> None).
Proof.
  split; [apply select_stream_None | apply select_stream_attributes].
Qed.

(** X10: [download_video] asks for the streams of the URL first.  When no
    progressive mp4 stream with a resolution label is among them it raises
    AttributeError without any download; when there is one it downloads
    one such stream, the selected one and only that, to the path it was
    given, failing as that download fails.  Folder and history list are
    left alone. *)
Theorem download_video_outcomes (video_url output_path : string)
    (offered : list stream) (s : state) :
  streams_reply E (tick s) video_url = inr offered ->
  let r := download_video E video_url output_path s in
  let labelled := filter has_resolution (filter progressive_mp4 offered) in
  (labelled = [] ->
   fst r = Raise (mkExn AttributeError
                    "'NoneType' object has no attribute 'download'") /\
   tick (snd r) = S (tick s) /\
   log (snd r) = Streams video_url :: log s) /\
  (labelled <> [] ->
   exists st,
     select_stream offered = Some st /\
     In st offered /\ is_progressive st = true /\ subtype st = "mp4" /\
     resolution st <> None /\
     fst r = match stream_download_reply E (S (tick s)) st output_path with
             | Some e => Raise e
             | None => Ret tt
             end /\
     tick (snd r) = S (S (tick s)) /\
     log (snd r)
     = StreamDownload (itag st) output_path :: Streams video_url :: log s) /\
  drive (snd r) = drive s /\ past_videos (snd r) = past_videos s.
Proof.
  intros Hreply r labelled. subst r labelled.
  unfold download_video. exec_unfold. rewrite Hreply. simpl.
  destruct (select_stream offered) as [st |] eqn:Hsel; simpl.
  - split; [| split].
    + intros Hnil. apply select_stream_None in Hnil. congruence.
    + intros _. exists st.
      destruct (select_stream_attributes offered st Hsel)
        as (Hin & Hp & Hm & Hl).
      repeat (split; [solve [auto] |]).
      destruct (stream_download_reply E (S (tick s)) st output_path);
        simpl; auto.
    + destruct (stream_download_reply E (S (tick s)) st output_path);
        simpl; auto.
  - split; [auto | split; [| auto]].
    intros Hne. apply select_stream_None in Hsel. contradiction.
Qed.

(** ** More on the catalogue loader *)

Lemma progress_lines_log (chunks : list nat) (s : state) :
  for_each chunks
    (fun percent => print ("Download " ++ str_of_nat percent ++ "%.")) s
  = (Ret tt,
     mkState (tick s) (drive s) (past_videos_json s) (past_videos s)
             (progress_lines chunks ++ log s)).
Proof.
  revert s. induction chunks as [| p rest IH]; intros s.
  - destruct s. reflexivity.
  - simpl for_each. unfold bind, print, emit. rewrite IH. simpl.
    unfold progress_lines. simpl. now rewrite <- app_assoc.
Qed.

(** X11: of several files named channels.json the loader reads the first
    of the listing and no other; it prints one line for each chunk of the
    download, returns the content when the download succeeds and lets the
    exception out when it fails; the folder is as before in both cases. *)
Theorem loader_reads_first_match (item : drive_file)
    (more : list drive_file) (chunks : list nat)
    (content : exn + list string) (s : state) :
  files_list_reply E (tick s) = None ->
  filter (fun f => file_name f =? "channels.json")%string (drive s)
  = item :: more ->
  get_media_reply E (S (tick s)) (file_id item) = (chunks, content) ->
  let r := download_channels_list_from_drive E s in
  fst r = match content with
          | inl e => Raise e
          | inr channels => Ret (Some channels)
          end /\
  log (snd r)
  = progress_lines chunks
    ++ DriveGetMedia (file_id item)
    :: DriveList (Some "channels.json") :: log s /\
  drive (snd r) = drive s /\
  tick (snd r) = S (S (tick s)).
Proof.
  intros Hlist Hfilter Hmedia.
  unfold download_channels_list_from_drive. exec_unfold.
  rewrite Hlist. simpl. rewrite Hfilter. simpl. rewrite Hmedia.
  unfold bind. rewrite progress_lines_log. simpl.
  destruct content; simpl; auto.
Qed.

(** ** The effects of one transfer *)

(** X12: a transfer all of whose steps succeed appends the URL at the end
    of the history list, adds to the folder exactly one file, named after
    the title with the suffix .mp4 and with the identifier the provider
    gave, and consumes four answers; the history file is not written. *)
Theorem successful_transfer_effects (u t : string) (s : state) :
  ~ In u (past_videos s) ->
  transfer_outcome E (tick s) u t = Ret tt ->
  let s' := snd (main_video E (u, t) s) in
  past_videos s' = past_videos s ++ [u] /\
  (exists id created,
     files_create_reply E (S (S (tick s)))
       (os_path_join OUTPUT_DIR (t ++ ".mp4")) (t ++ ".mp4")
     = inr (id, created) /\
     drive s' = drive s ++ [mkFile id (t ++ ".mp4") created]) /\
  tick s' = tick s + 4 /\
  past_videos_json s' = past_videos_json s.
Proof.
  intros Hnew. apply contains_not_In in Hnew.
  unfold transfer_outcome, main_video, main_video_try. exec_unfold.
  rewrite Hnew. simpl.
  destruct (streams_reply E (tick s) u) as [e | offered]; [discriminate |].
  simpl.
  destruct (select_stream offered) as [st |]; [| discriminate]. simpl.
  destruct (stream_download_reply E (S (tick s)) st _); [discriminate |].
  simpl.
  destruct (files_create_reply E (S (S (tick s))) _ _) as [e | [id created]];
    [discriminate |].
  simpl.
  destruct (os_remove_reply E (S (S (S (tick s)))) _); [discriminate |].
  simpl. intros _. repeat split; eauto. lia.
Qed.

(** X13: when the upload succeeded and the removal of the scratch file
    raises, the file is in the folder and the URL is not in the history
    list: the append of line 201 comes after [os.remove], so the video
    counts as failed and a later run uploads it again. *)
Theorem upload_kept_but_not_recorded (u t id created : string)
    (offered : list stream) (st : stream) (e : exn) (s : state) :
  let file_name := (t ++ ".mp4")%string in
  let file_path := os_path_join OUTPUT_DIR file_name in
  ~ In u (past_videos s) ->
  streams_reply E (tick s) u = inr offered ->
  select_stream offered = Some st ->
  stream_download_reply E (S (tick s)) st file_path = None ->
  files_create_reply E (S (S (tick s))) file_path file_name
  = inr (id, created) ->
  os_remove_reply E (S (S (S (tick s)))) file_path = Some e ->
  let r := main_video E (u, t) s in
  fst r = Ret tt /\
  drive (snd r) = drive s ++ [mkFile id file_name created] /\
  past_videos (snd r) = past_videos s /\
  log (snd r)
  = Print ("Error: " ++ exn_str e) :: OsRemove file_path
    :: DriveCreate file_path file_name :: Print ("Downloaded: " ++ t)
    :: StreamDownload (itag st) file_path :: Streams u :: log s.
Proof.
  intros file_name file_path Hnew Hs Hsel Hd Hc Hr. subst file_name file_path.
  apply contains_not_In in Hnew.
  unfold main_video, main_video_try. exec_unfold.
  rewrite Hnew. simpl. rewrite Hs. simpl. rewrite Hsel. simpl.
  rewrite Hd. simpl. rewrite Hc. simpl. rewrite Hr. simpl. auto.
Qed.

(** ** What a run adds to the folder *)

#[local] Instance adds_only_mp4_preorder : PreOrder adds_only_mp4.
Proof.
  split.
  - intros s f Hf. now left.
  - intros a b c Hab Hbc f Hf.
    destruct (Hbc f Hf) as [Hb | Hname]; [now apply Hab | now right].
Qed.

Lemma adds_emit (e : event) : stable adds_only_mp4 (emit e).
Proof. intros s f Hf. now left. Qed.

Lemma adds_next_tick : stable adds_only_mp4 next_tick.
Proof. intros s f Hf. now left. Qed.

Lemma adds_set_past_videos (l : list string) :
  stable adds_only_mp4 (set_past_videos l).
Proof. intros s f Hf. now left. Qed.

Lemma adds_filter (p : drive_file -> bool) :
  stable adds_only_mp4 (modify_drive (filter p)).
Proof. intros s f Hf. left. simpl in Hf. now apply filter_In in Hf. Qed.

Lemma adds_upload_file (file_path t : string) :
  stable adds_only_mp4 (upload_file E file_path (t ++ ".mp4")).
Proof.
  intros s. unfold upload_file, files_create. exec; intros f Hf;
    try (now left).
  simpl in Hf. apply in_app_or in Hf. destruct Hf as [Hf | [<- | []]].
  - now left.
  - right. now exists t.
Qed.

Lemma adds_load_past_videos : stable adds_only_mp4 load_past_videos.
Proof.
  intros s f. unfold load_past_videos, bind, emit, set_past_videos. simpl.
  destruct (past_videos_json s); simpl; auto.
Qed.

Lemma adds_dump_past_videos : stable adds_only_mp4 dump_past_videos.
Proof. intros s f Hf. now left. Qed.

Ltac head_of t :=
  match t with
  | ?f _ => head_of f
  | _ => t
  end.

Ltac adds_step :=
  first
    [ apply adds_upload_file | apply adds_emit | apply adds_next_tick
    | apply adds_filter | apply adds_set_past_videos
    | apply adds_load_past_videos | apply adds_dump_past_videos
    | apply stable_ret | apply stable_raise
    | apply stable_of_option | apply stable_of_sum
    | apply stable_get_drive | apply stable_get_past_videos
    | apply stable_extract_videos
    | apply stable_for_each; intros ? _
    | apply stable_bind; [ | intros ? ]
    | apply stable_try_except; [ | intros ? ]
    | match goal with
      | |- stable _ (match ?x with _ => _ end) => destruct x
      | |- stable _ ?m => let h := head_of m in progress unfold h
      end ].

Lemma adds_main : stable adds_only_mp4 (main E).
Proof. repeat adds_step. Qed.

Lemma mp4_is_not_the_catalogue (t : string) :
  (t ++ ".mp4")%string <> "channels.json".
Proof.
  intros H.
  do 13 (destruct t as [| ? t];
         [cbv in H; discriminate H
         | change (String ?a ?x ++ ?y)%string
             with (String a (x ++ y)%string) in H;
           injection H as _ H]).
  destruct t; cbv in H; discriminate H.
Qed.

(** X14: whatever happens in a run, the files it adds to the folder all
    carry a name that ends in .mp4; it therefore never creates or replaces
    the catalogue: a file named channels.json that is in the folder after
    the run was there before. *)
Theorem run_adds_only_mp4 (s : state) (f : drive_file) :
  In f (drive (snd (main E s))) ->
  (In f (drive s) \/ exists t, file_name f = (t ++ ".mp4")%string) /\
  (file_name f = "channels.json" -> In f (drive s)).
Proof.
  intros Hf. pose proof (adds_main s f Hf) as Hadd.
  split; [exact Hadd |].
  intros Hname. destruct Hadd as [Hin | [t Ht]]; [exact Hin |].
  rewrite Hname in Ht. symmetry in Ht.
  exfalso. exact (mp4_is_not_the_catalogue t Ht).
Qed.

(** ** The history file *)

Lemma prelude_of_parts (s s1 s2 : state) (c : option (list string)) :
  (delete_old_videos E 14 ;; print_now E)%m s = (Ret tt, s1) ->
  download_channels_list_from_drive E s1 = (Ret c, s2) ->
  prelude E s = (Ret c, s2).
Proof.
  intros Hsweep Hload. unfold prelude, bind in *.
  destruct (delete_old_videos E 14 s) as [[[] | e] s0]; [| discriminate].
  destruct (print_now E s0) as [[[] | e] s0']; [| discriminate].
  injection Hsweep as ->. exact Hload.
Qed.

Lemma main_without_history (s s1 : state) (channels : list string) :
  prelude E s = (Ret (Some channels), s1) ->
  past_videos_json s1 = None ->
  main E s
  = (Raise (mkExn FileNotFoundError
              "[Errno 2] No such file or directory: 'past_videos.json'"),
     snd (emit (OpenRead "past_videos.json") s1)).
Proof.
  unfold main, prelude, bind.
  destruct (delete_old_videos E 14 s) as [[[] | e] s0]; [| discriminate].
  destruct (print_now E s0) as [[[] | e] s0']; [| discriminate].
  intros -> Hfile. unfold load_past_videos, bind, emit. simpl.
  now rewrite Hfile.
Qed.

(** X15: a run never creates the history file.  When it is missing and the
    catalogue is found, [main] raises FileNotFoundError at line 181, after
    the sweep and the download of the catalogue and before any request to
    the resolver; when the catalogue is absent the missing file is not
    even looked for. *)
Theorem missing_history_file (s : state) :
  past_videos_json s = None ->
  past_videos_json (snd (main E (restart s))) = None /\
  (forall e, In e (log (snd (main E (restart s)))) ->
             prelude_event e \/ e = OpenRead "past_videos.json") /\
  (forall channels s1 s2,
     (delete_old_videos E 14 ;; print_now E)%m (restart s) = (Ret tt, s1) ->
     download_channels_list_from_drive E s1 = (Ret (Some channels), s2) ->
     main E (restart s)
     = (Raise (mkExn FileNotFoundError
                 "[Errno 2] No such file or directory: 'past_videos.json'"),
        snd (emit (OpenRead "past_videos.json") s2))).
Proof.
  intros Hfile.
  assert (Hthird : forall channels s1 s2,
    (delete_old_videos E 14 ;; print_now E)%m (restart s) = (Ret tt, s1) ->
    download_channels_list_from_drive E s1 = (Ret (Some channels), s2) ->
    main E (restart s)
    = (Raise (mkExn FileNotFoundError
                "[Errno 2] No such file or directory: 'past_videos.json'"),
       snd (emit (OpenRead "past_videos.json") s2))).
  { intros channels s1 s2 Hsweep Hload.
    pose proof (prelude_of_parts _ _ _ _ Hsweep Hload) as Hpre.
    apply (main_without_history _ _ _ Hpre).
    pose proof (prelude_quiet (restart s)) as (Hj & _).
    rewrite Hpre in Hj. simpl in Hj. congruence. }
  split; [| split; [| exact Hthird]].
  - pose proof (main_cases (restart s)) as Hm. simpl in Hm.
    pose proof (prelude_quiet (restart s)) as (Hj & _).
    simpl in Hj. rewrite Hfile in Hj.
    destruct (prelude E (restart s)) as [[[channels |] | e] s1];
      simpl in *.
    + rewrite Hj in Hm. destruct Hm as [e ->]. reflexivity.
    + rewrite Hm. exact Hj.
    + rewrite Hm. exact Hj.
  - pose proof (main_cases (restart s)) as Hm. simpl in Hm.
    pose proof (prelude_quiet (restart s)) as (Hj & _ & l & Hl & Hq).
    simpl in Hj, Hl. rewrite app_nil_r in Hl. rewrite Hfile in Hj.
    rewrite Forall_forall in Hq.
    destruct (prelude E (restart s)) as [[[channels |] | e] s1];
      simpl in *.
    + rewrite Hj in Hm. destruct Hm as [e ->]. simpl.
      intros e' [<- | He]; [now right | left; apply Hq; now rewrite <- Hl].
    + rewrite Hm. simpl.
      intros e' [<- | He]; [left; exact I | left; apply Hq; now rewrite <- Hl].
    + rewrite Hm. simpl. intros e' He. left. apply Hq. now rewrite <- Hl.
Qed.

(** X16: once the catalogue and the history list are read, nothing makes
    the run fail: whatever the resolver and the transfers do, [main]
    returns normally and its last act is to write the history list it
    holds in memory, the list it read and what it appended, to
    past_videos.json. *)
Theorem run_always_persists (s s1 s2 : state) (channels h : list string) :
  (delete_old_videos E 14 ;; print_now E)%m (restart s) = (Ret tt, s1) ->
  download_channels_list_from_drive E s1 = (Ret (Some channels), s2) ->
  past_videos_json s = Some h ->
  let r := main E (restart s) in
  fst r = Ret tt /\
  past_videos_json (snd r) = Some (past_videos (snd r)) /\
  (exists l, log (snd r)
             = OpenWrite "past_videos.json" (past_videos (snd r))
               :: l ++ OpenRead "past_videos.json" :: log s2) /\
  (exists added, past_videos (snd r) = h ++ added).
Proof.
  intros Hsweep Hload Hfile r. subst r.
  pose proof (prelude_of_parts _ _ _ _ Hsweep Hload) as Hpre.
  pose proof (main_cases (restart s)) as Hm. simpl in Hm.
  pose proof (prelude_quiet (restart s)) as (Hj & _).
  rewrite Hpre in Hm, Hj. simpl in Hm, Hj. rewrite Hj in Hm. simpl in Hm.
  rewrite Hfile in Hm. rewrite Hm. simpl.
  destruct (main_channels_sync channels (loaded h s2))
    as (_ & [added Hadd] & [l Hl]).
  simpl in Hadd, Hl. repeat split; eauto.
  exists l. now rewrite Hl.
Qed.

Lemma main_video_counts (u t : string) (s : state) :
  let s' := snd (main_video E (u, t) s) in
  List.length (past_videos s') + upload_count (log s)
  <= List.length (past_videos s) + upload_count (log s').
Proof.
  unfold main_video, main_video_try, upload_count. exec;
    rewrite ?length_app; simpl; lia.
Qed.

(** The URLs of the list come from [h] or from a transfer started, and
    the list has grown by no more than the uploads requested. *)
Definition accounted (h : list string) (s : state) : Prop :=
  (forall u, In u (past_videos s) -> In u h \/ In (Streams u) (log s)) /\
  List.length (past_videos s) <= List.length h + upload_count (log s).

Lemma accounted_channels (h : list string) (channels : list string) :
  stable (preserves (accounted h)) (for_each channels (main_channel E)).
Proof.
  apply channels_invariant.
  - intros a b (_ & Hp & l & Hl & _) [Ha Hb]. split.
    + intros u Hu. rewrite Hp in Hu. destruct (Ha u Hu); [now left |].
      right. rewrite Hl. apply in_or_app. now right.
    + rewrite Hp, Hl. unfold upload_count in *.
      rewrite filter_app, length_app. lia.
  - intros a line [Ha Hb]. split.
    + intros u Hu. destruct (Ha u Hu); [now left | right; now right].
    + simpl. exact Hb.
  - intros [u t] a [Ha Hb]. split.
    + destruct (main_video_cases u t a) as (_ & _ & Hcases).
      destruct Hcases as [(_ & Hp & Hlog)
                         | [(_ & Hp & e & l & Hlog & _)
                           | (_ & Hp & l & Hlog & _)]];
        intros v Hv; rewrite Hp in Hv; rewrite Hlog.
      * destruct (Ha v Hv); [now left | right; now right].
      * destruct (Ha v Hv); [now left |].
        right. right. apply in_or_app. right. now right.
      * apply in_app_or in Hv. destruct Hv as [Hv | [<- | []]].
        -- destruct (Ha v Hv); [now left |].
           right. right. apply in_or_app. right. now right.
        -- right. right. apply in_or_app. right. now left.
    + pose proof (main_video_counts u t a) as Hc. cbv zeta in Hc. lia.
Qed.

(** X17: every URL of the history list that a run leaves was in the list
    it read or had its transfer started in the run, and the list never
    grows by more entries than uploads were requested: no URL is recorded
    without a transfer. *)
Theorem recorded_urls_were_transferred (s : state) (h h' : list string) :
  past_videos_json s = Some h ->
  past_videos_json (snd (main E (restart s))) = Some h' ->
  (forall u, In u h' ->
             In u h \/ In (Streams u) (log (snd (main E (restart s))))) /\
  List.length h'
  <= List.length h + upload_count (log (snd (main E (restart s)))).
Proof.
  intros Hfile.
  pose proof (main_cases (restart s)) as Hm. simpl in Hm.
  pose proof (prelude_quiet (restart s)) as (Hj & _).
  simpl in Hj. rewrite Hfile in Hj.
  destruct (prelude E (restart s)) as [[[channels |] | e] s1]; simpl in *.
  - rewrite Hj in Hm. rewrite Hm. simpl. intros [= <-].
    assert (Hstart : accounted h (loaded h s1)).
    { split; simpl; [auto | lia]. }
    destruct (accounted_channels h channels (loaded h s1) Hstart)
      as [Hurls Hlen].
    split.
    + intros u Hu. destruct (Hurls u Hu); [now left | right; now right].
    + exact Hlen.
  - rewrite Hm. simpl. rewrite Hj. intros [= <-]. split; [auto | lia].
  - rewrite Hm. simpl. rewrite Hj. intros [= <-]. split; [auto | lia].
Qed.

(** X18: with replies of the provider that do not change, a run that gets
    to the channels passes over no video: every video that the resolver
    lists for a channel of the catalogue is, when the run ends, in the
    history list written or has had its transfer started in the run; a
    video whose transfer failed in an earlier run is therefore tried
    again. *)
Theorem listed_videos_are_tried (s s1 s2 sx : state)
    (channels h : list string) (c u t : string)
    (vs : list (string * string)) :
  (forall t t' c, channels_list_reply E t c = channels_list_reply E t' c) ->
  (forall t t' p n,
     playlist_items_reply E t p n = playlist_items_reply E t' p n) ->
  (delete_old_videos E 14 ;; print_now E)%m (restart s) = (Ret tt, s1) ->
  download_channels_list_from_drive E s1 = (Ret (Some channels), s2) ->
  past_videos_json s = Some h ->
  In c channels ->
  fst (get_latest_video_url E c LAST_VIDEO_N sx) = Ret (Videos vs) ->
  In (u, t) vs ->
  let s' := snd (main E (restart s)) in
  (exists h', past_videos_json s' = Some h' /\ In u h') \/
  In (Streams u) (log s').
Proof.
  intros Hch Hpl Hsweep Hload Hfile Hc Hres Hin s'. subst s'.
  rewrite get_latest_video_url_result in Hres. injection Hres as Hres.
  pose proof (prelude_of_parts _ _ _ _ Hsweep Hload) as Hpre.
  pose proof (main_cases (restart s)) as Hm. simpl in Hm.
  pose proof (prelude_quiet (restart s)) as (Hj & _).
  rewrite Hpre in Hm, Hj. simpl in Hm, Hj. rewrite Hj in Hm. simpl in Hm.
  rewrite Hfile in Hm. rewrite Hm. simpl.
  destruct (channels_loop_covers channels (loaded h s2) c u t vs (tick sx)
              Hch Hpl Hc Hres Hin) as [Hp | Hs].
  - left. eauto.
  - right. now right.
Qed.


End Facts.

(** * The theorems at work on the sample worlds *)

Lemma started_In (u : string) (l : list event) :
  In (Streams u) l -> In u (started l).
Proof.
  intros H. unfold started. apply in_flat_map.
  exists (Streams u). split; [exact H | now left].
Qed.

(** Membership in a list that computes. *)
Ltac find_in_list :=
  vm_compute; repeat first [ left; reflexivity | right ].

Lemma run_split (E : Env) (s : state) :
  fst (main E s) = Ret tt -> main E s = (Ret tt, snd (main E s)).
Proof. destruct (main E s) as [r s']. simpl. now intros ->. Qed.

Lemma history_url_never_transferred_witness :
  ~ In (Streams url_A) (log (snd (main env_ok (restart sample_state)))).
Proof.
  apply (history_url_never_transferred env_ok sample_state [url_A] url_A).
  - reflexivity.
  - simpl. auto.
Defined.

Lemma second_run_idempotent_witness :
  let s1 := snd (main env_ok (restart sample_state)) in
  past_videos_json (snd (main env_ok (restart s1)))
  = Some [url_A; url_B; url_C].
Proof.
  intros s1.
  assert (H : past_videos_json (snd (main env_ok (restart s1)))
              = past_videos_json s1).
  { apply (second_run_idempotent env_ok sample_state s1).
    - reflexivity.
    - reflexivity.
    - reflexivity.
    - apply run_split. vm_compute. reflexivity.
    - intros u Hu. exists [url_A; url_B; url_C]. split.
      + vm_compute. reflexivity.
      + apply started_In in Hu.
        assert (Hs : started (log s1) = [url_C; url_B])
          by (vm_compute; reflexivity).
        rewrite Hs in Hu. destruct Hu as [<- | [<- | []]]; simpl; auto. }
  rewrite H. vm_compute. reflexivity.
Defined.

Lemma failed_transfer_not_recorded_witness :
  past_videos
    (snd (main_video env_upload_fails (url_B, "b")
            (mkState 0 [] (Some [url_A]) [url_A] [])))
  = [url_A].
Proof.
  pose (s := mkState 0 [] (Some [url_A]) [url_A] []).
  destruct (failed_transfer_not_recorded env_upload_fails url_B "b" [] s)
    as [_ Hfail].
  - simpl. intros [H | []]. discriminate H.
  - apply (Hfail (mkExn HttpError "storage quota exceeded")
                 (snd (main_video_try env_upload_fails url_B "b" s))).
    vm_compute. reflexivity.
Defined.

Lemma channel_failure_isolated_witness :
  In (ChannelsList "UC1")
     (log (snd (for_each ["UC0"; "UC1"] (main_channel env_ok)
                  (mkState 0 [] (Some [url_A]) [url_A] [])))).
Proof.
  pose (s := mkState 0 [] (Some [url_A]) [url_A] []).
  destruct (channel_failure_isolated env_ok [] ["UC1"] "UC0" s
              (snd (main_channel_try env_ok "UC0" s))
              (mkExn TypeError "cannot unpack non-iterable NoneType object"))
    as (_ & _ & _ & _ & Hlater & _).
  - vm_compute. reflexivity.
  - apply (Hlater "UC1"); [now left | discriminate].
Defined.

Lemma retention_boundary_witness :
  log (snd (delete_old_videos_item env_ok 14 file_at_boundary sample_state))
  = log sample_state /\
  drive (snd (delete_old_videos_item env_ok 14 file_at_boundary sample_state))
  = drive sample_state.
Proof.
  destruct (proj1 (retention_boundary env_ok 14) file_at_boundary 0%Z
              sample_state eq_refl) as (_ & l & Hl & _ & Hkept & _).
  destruct Hkept as [-> Hdrive]; [reflexivity |].
  split; [exact Hl | exact Hdrive].
Defined.

Lemma select_stream_policy_witness :
  (exists st,
     select_stream [stream_360p; stream_480p; stream_720p] = Some st /\
     resolution st = Some "480p") /\
  (exists st,
     select_stream [stream_720p; stream_unknown_itag; stream_360p] = Some st /\
     res_key st <= res_key stream_360p).
Proof.
  split.
  - destruct (proj1 (select_stream_policy
                       [stream_360p; stream_480p; stream_720p]))
      as (st & Hsel & _ & H480 & _); [discriminate |].
    exists st. split; [exact Hsel |].
    apply H480. exists stream_480p. simpl. auto.
  - destruct (proj1 (select_stream_policy
                       [stream_720p; stream_unknown_itag; stream_360p]))
      as (st & Hsel & _ & _ & Hlow); [discriminate |].
    exists st. split; [exact Hsel |].
    apply Hlow.
    + intros s [<- | [<- | [<- | []]]]; discriminate.
    + intros s [<- | [<- | []]]; discriminate.
    + simpl. auto.
Defined.

(** C6 as stated fails: a progressive mp4 stream is offered, and since it
    carries no resolution label the ordering leaves it out: nothing is
    selected and [download_video] raises instead of downloading it. *)
Lemma unlabelled_stream_not_selected :
  filter progressive_mp4 [stream_unknown_itag] = [stream_unknown_itag] /\
  select_stream [stream_unknown_itag] = None /\
  download_video (sample_env ["UC1"] (inr [stream_unknown_itag]) None)
                 url_A "videos/a.mp4" sample_state
  = (Raise (mkExn AttributeError
              "'NoneType' object has no attribute 'download'"),
     mkState 1 (drive sample_state) (Some [url_A]) [] [Streams url_A]).
Proof. repeat split. Defined.

Lemma absent_catalog_ends_run_witness :
  main env_ok (restart state_without_catalogue)
  = (Ret tt,
     mkState 4 [file_at_boundary] (Some [url_A]) []
       [Print "No channels found"; Print "file channels.json not found";
        DriveList (Some "channels.json"); PrintNow (14 * day);
        DriveList None]).
Proof.
  pose (s1 := snd ((delete_old_videos env_ok 14 ;; print_now env_ok)%m
                     (restart state_without_catalogue))).
  destruct (absent_catalog_ends_run env_ok state_without_catalogue s1
              (snd (download_channels_list_from_drive env_ok s1)))
    as (Hmain & _).
  - vm_compute. reflexivity.
  - vm_compute. reflexivity.
  - rewrite Hmain. vm_compute. reflexivity.
Defined.

Lemma resolver_contract_witness :
  fst (get_latest_video_url env_ok "UC1" LAST_VIDEO_N sample_state)
  = Ret (Videos [(url_A, "a"); (url_B, "b"); (url_C, "c")]) /\
  fst (get_latest_video_url env_ok "UC0" LAST_VIDEO_N sample_state)
  = Ret (NoneAnd "No channel found with ID: UC0").
Proof.
  split.
  - destruct (resolver_contract env_ok "UC1" LAST_VIDEO_N sample_state)
      as (Hvideos & _).
    apply (Hvideos ltac:(discriminate) "UU1" [] sample_items).
    + reflexivity.
    + reflexivity.
    + discriminate.
    + unfold LAST_VIDEO_N. simpl. lia.
  - destruct (resolver_contract env_ok "UC0" LAST_VIDEO_N sample_state)
      as (_ & _ & _ & Hnone & _).
    apply Hnone; [discriminate | reflexivity].
Defined.

Lemma catalog_swept_like_any_file_witness :
  let s' := snd (main env_ok (restart stale_state)) in
  In (DriveDelete "f4") (log s') /\ no_catalog s'.
Proof.
  intros s'.
  destruct (catalog_swept_like_any_file env_ok) as (_ & Hswept & _).
  destruct (Hswept stale_state stale_catalogue_file (-1000000)%Z
              (snd (delete_old_videos env_ok 14 (restart stale_state))))
    as (Hdel & Hno & _).
  - simpl. auto.
  - reflexivity.
  - intros g [<- | [<- | []]]; [discriminate | reflexivity].
  - reflexivity.
  - intros t. vm_compute. reflexivity.
  - reflexivity.
  - vm_compute. reflexivity.
  - split; [exact Hdel | exact Hno].
Defined.

(** C9 as stated fails: the catalogue is one second older than the
    threshold and the sweep asks for its deletion, but the provider
    refuses, the error is swallowed at lines 32-33, the catalogue stays in
    the folder and the run synchronises the channels.  And a sweep that
    stops at an earlier file of the listing never gets to the catalogue. *)
Lemma stale_catalogue_survives_refusal :
  let s' := snd (main env_delete_refused (restart stale_state)) in
  let s'' := snd (main env_ok (restart undated_before_catalogue_state)) in
  In stale_catalogue_file (drive stale_state) /\
  fromisoformat env_delete_refused
    (drop_last (file_createdTime stale_catalogue_file))
  = Some (-1000000)%Z /\
  (clock env_delete_refused 0 - (-1000000) > timedelta_days 14)%Z /\
  fst (main env_delete_refused (restart stale_state)) = Ret tt /\
  In (DriveDelete "f4") (log s') /\
  In stale_catalogue_file (drive s') /\
  In (Streams url_B) (log s') /\
  ~ In (Print "No channels found") (log s') /\
  In stale_catalogue_file (drive s'') /\
  ~ In (DriveDelete "f4") (log s'').
Proof.
  intros s' s''. subst s' s''.
  split; [simpl; auto |].
  split; [reflexivity |].
  split; [reflexivity |].
  split; [vm_compute; reflexivity |].
  split; [find_in_list |].
  split; [find_in_list |].
  split; [find_in_list |].
  split; [vm_compute; intuition discriminate |].
  split; [find_in_list |].
  vm_compute. intuition discriminate.
Defined.

(** C10 as stated fails: the catalogue lists UC1 twice and the video B is
    unavailable, so its transfer is started once for each listing. *)
Lemma transfer_started_twice :
  NoDup [url_A] /\
  ~ transfer_count url_B
      (log (snd (main env_unavailable_twice (restart sample_state)))) <= 1.
Proof.
  split.
  - constructor; [intros [] | constructor].
  - vm_compute. intros H. repeat apply le_S_n in H. inversion H.
Defined.

Lemma history_appended_once_witness :
  NoDup [url_A; url_B; url_C] /\
  transfer_count url_B (log (snd (main env_ok (restart sample_state))))
  <= 1 + 0 /\
  transfer_count url_B
    (log (snd (main env_unavailable_twice (restart sample_state))))
  <= 1 + 2.
Proof.
  destruct (history_appended_once env_ok sample_state [url_A] eq_refl)
    as (_ & Hcount & Hnodup).
  destruct (history_appended_once env_unavailable_twice sample_state [url_A]
              eq_refl) as (_ & Hcount' & _).
  split; [| split].
  - apply Hnodup.
    + constructor; [intros [] | constructor].
    + vm_compute. reflexivity.
  - pose proof (proj2 (Hcount url_B)) as Hb.
    assert (Hf : failed_transfers url_B
                   (log (snd (main env_ok (restart sample_state)))) = 0)
      by (vm_compute; reflexivity).
    rewrite Hf in Hb. exact Hb.
  - pose proof (proj2 (Hcount' url_B)) as Hb.
    assert (Hf : failed_transfers url_B
                   (log (snd (main env_unavailable_twice
                                (restart sample_state)))) = 2)
      by (vm_compute; reflexivity).
    rewrite Hf in Hb. exact Hb.
Defined.

(** ** Beyond the claims *)

Lemma sweep_returns_witness :
  fst (delete_old_videos env_delete_refused 14 sample_state) = Ret tt.
Proof.
  apply (sweep_returns env_delete_refused 14 sample_state).
  - reflexivity.
  - intros item s0 [<- | [<- | [<- | []]]]; eexists; reflexivity.
  - intros t id e H. cbv in H. injection H as <-. reflexivity.
Defined.

Lemma unparsable_creation_time_aborts_run_witness :
  exists e,
    main env_ok (restart undated_state)
    = (Raise e, snd (delete_old_videos env_ok 14 (restart undated_state))) /\
    past_videos_json (snd (main env_ok (restart undated_state)))
    = past_videos_json undated_state /\
    Forall prelude_event (log (snd (main env_ok (restart undated_state)))).
Proof.
  apply (unparsable_creation_time_aborts_run env_ok undated_state
           undated_file).
  - simpl. auto.
  - vm_compute. reflexivity.
Defined.

Lemma sweep_frame_witness :
  In file_at_boundary (drive (snd (delete_old_videos env_ok 14 sample_state))).
Proof.
  destruct (sweep_frame env_ok 14 sample_state) as (_ & _ & _ & _ & Hkept).
  apply (Hkept ltac:(vm_compute; repeat constructor; simpl; intuition discriminate)
               file_at_boundary 0%Z).
  - simpl. auto.
  - simpl. auto.
  - vm_compute. reflexivity.
  - intros t. vm_compute. discriminate.
Defined.

Lemma is_older_than_days_drops_last_char_witness :
  exists e,
    is_older_than_days env_ok "yesterday" 14 sample_state
    = (Raise e, sample_state) /\
    exn_cls e = ValueError.
Proof.
  destruct (is_older_than_days_drops_last_char env_ok "yesterda" "y" "y" 14
              sample_state) as (_ & _ & Hraise).
  apply Hraise. vm_compute. reflexivity.
Defined.

Lemma short_playlist_skips_channel_witness :
  fst (get_latest_video_url env_two_uploads_only "UC1" LAST_VIDEO_N
         state_in_run)
  = Ret (NoneAnd ("An unexpected error occurred: "
                  ++ "list index out of range")) /\
  past_videos (snd (main_channel env_two_uploads_only "UC1" state_in_run))
  = past_videos state_in_run.
Proof.
  destruct (short_playlist_skips_channel env_two_uploads_only "UC1" "UU1" []
              [mkItem "A" "a"; mkItem "B" "b"] state_in_run)
    as (Hres & _ & Hpast & _).
  - discriminate.
  - reflexivity.
  - reflexivity.
  - discriminate.
  - unfold LAST_VIDEO_N. simpl. lia.
  - split; [exact Hres | exact Hpast].
Defined.

Lemma resolver_failure_messages_witness :
  fst (get_latest_video_url env_quota_exceeded "UC1" LAST_VIDEO_N
         sample_state)
  = Ret (NoneAnd ("API Error: " ++ "quotaExceeded")).
Proof.
  pose proof (resolver_failure_messages env_quota_exceeded "UC1"
                LAST_VIDEO_N sample_state) as H.
  cbv zeta in H. destruct H as (_ & Hfail & _).
  destruct (Hfail ltac:(discriminate) (mkExn HttpError "quotaExceeded")
                  eq_refl) as [Hres _].
  exact Hres.
Defined.

Lemma resolver_budget_witness :
  exists vs,
    fst (get_latest_video_url env_ok "UC1" LAST_VIDEO_N sample_state)
    = Ret (Videos vs) /\
    List.length vs = LAST_VIDEO_N.
Proof.
  eexists. split.
  - vm_compute. reflexivity.
  - destruct (resolver_budget env_ok "UC1" LAST_VIDEO_N sample_state)
      as (_ & _ & _ & _ & _ & Hlen).
    apply Hlen. vm_compute. reflexivity.
Defined.

Lemma select_stream_eligible_witness :
  select_stream [stream_1080p_video_only; stream_unknown_itag] = None.
Proof.
  apply (proj2 (proj1 (select_stream_eligible
                         [stream_1080p_video_only; stream_unknown_itag]))).
  reflexivity.
Defined.

Lemma download_video_outcomes_witness :
  (fst (download_video env_video_only url_A "videos/a.mp4" sample_state)
   = Raise (mkExn AttributeError
              "'NoneType' object has no attribute 'download'") /\
   log (snd (download_video env_video_only url_A "videos/a.mp4"
               sample_state))
   = [Streams url_A]) /\
  (exists st,
     select_stream sample_streams = Some st /\
     log (snd (download_video env_ok url_A "videos/a.mp4" sample_state))
     = [StreamDownload (itag st) "videos/a.mp4"; Streams url_A]).
Proof.
  split.
  - destruct (download_video_outcomes env_video_only url_A "videos/a.mp4"
                [stream_1080p_video_only] sample_state eq_refl)
      as (Hnone & _).
    destruct (Hnone eq_refl) as (Hres & _ & Hlog).
    split; [exact Hres | exact Hlog].
  - destruct (download_video_outcomes env_ok url_A "videos/a.mp4"
                sample_streams sample_state eq_refl)
      as (_ & Hsome & _).
    destruct Hsome as (st & Hsel & _ & _ & _ & _ & _ & _ & Hlog);
      [discriminate |].
    exists st. split; [exact Hsel | exact Hlog].
Defined.

Lemma loader_reads_first_match_witness :
  fst (download_channels_list_from_drive env_ok two_catalogues_state)
  = Ret (Some ["UC0"; "UC1"]) /\
  log (snd (download_channels_list_from_drive env_ok two_catalogues_state))
  = progress_lines [50; 100]
    ++ DriveGetMedia "f3" :: DriveList (Some "channels.json") :: [].
Proof.
  destruct (loader_reads_first_match env_ok catalogue_file
              [second_catalogue_file] [50; 100] (inr ["UC0"; "UC1"])
              two_catalogues_state)
    as (Hres & Hlog & _).
  - reflexivity.
  - reflexivity.
  - reflexivity.
  - split; [exact Hres | exact Hlog].
Defined.

Lemma successful_transfer_effects_witness :
  past_videos (snd (main_video env_ok (url_B, "b") state_in_run))
  = [url_A] ++ [url_B] /\
  tick (snd (main_video env_ok (url_B, "b") state_in_run)) = 0 + 4.
Proof.
  destruct (successful_transfer_effects env_ok url_B "b" state_in_run)
    as (Hpast & _ & Htick & _).
  - simpl. intros [H | []]. discriminate H.
  - vm_compute. reflexivity.
  - split; [exact Hpast | exact Htick].
Defined.

Lemma upload_kept_but_not_recorded_witness :
  drive (snd (main_video env_scratch_locked (url_B, "b") state_in_run))
  = [] ++ [mkFile "v2" "b.mp4" "2024-01-15T00:00:00.000Z"] /\
  past_videos (snd (main_video env_scratch_locked (url_B, "b") state_in_run))
  = [url_A].
Proof.
  destruct (upload_kept_but_not_recorded env_scratch_locked url_B "b" "v2"
              "2024-01-15T00:00:00.000Z" sample_streams stream_480p
              (mkExn OtherException "file in use") state_in_run)
    as (_ & Hdrive & Hpast & _).
  - simpl. intros [H | []]. discriminate H.
  - reflexivity.
  - vm_compute. reflexivity.
  - reflexivity.
  - vm_compute. reflexivity.
  - reflexivity.
  - split; [exact Hdrive | exact Hpast].
Defined.

Lemma run_adds_only_mp4_witness : In catalogue_file (drive sample_state).
Proof.
  destruct (run_adds_only_mp4 env_ok sample_state catalogue_file)
    as (_ & Hthere).
  - vm_compute. auto.
  - apply Hthere. reflexivity.
Defined.

Lemma missing_history_file_witness :
  fst (main env_ok (restart state_without_history))
  = Raise (mkExn FileNotFoundError
             "[Errno 2] No such file or directory: 'past_videos.json'").
Proof.
  pose (s1 := snd ((delete_old_videos env_ok 14 ;; print_now env_ok)%m
                     (restart state_without_history))).
  destruct (missing_history_file env_ok state_without_history eq_refl)
    as (_ & _ & Hraise).
  rewrite (Hraise ["UC0"; "UC1"] s1
             (snd (download_channels_list_from_drive env_ok s1))).
  - reflexivity.
  - vm_compute. reflexivity.
  - vm_compute. reflexivity.
Defined.

Lemma run_always_persists_witness :
  fst (main env_upload_fails (restart sample_state)) = Ret tt /\
  past_videos_json (snd (main env_upload_fails (restart sample_state)))
  = Some (past_videos (snd (main env_upload_fails (restart sample_state)))).
Proof.
  pose (s1 := snd ((delete_old_videos env_upload_fails 14 ;;
                    print_now env_upload_fails)%m (restart sample_state))).
  destruct (run_always_persists env_upload_fails sample_state s1
              (snd (download_channels_list_from_drive env_upload_fails s1))
              ["UC0"; "UC1"] [url_A])
    as (Hret & Hfile & _).
  - vm_compute. reflexivity.
  - vm_compute. reflexivity.
  - reflexivity.
  - split; [exact Hret | exact Hfile].
Defined.

Lemma recorded_urls_were_transferred_witness :
  List.length [url_A; url_B; url_C]
  <= List.length [url_A]
     + upload_count (log (snd (main env_ok (restart sample_state)))).
Proof.
  destruct (recorded_urls_were_transferred env_ok sample_state [url_A]
              [url_A; url_B; url_C]) as (_ & Hlen).
  - reflexivity.
  - vm_compute. reflexivity.
  - exact Hlen.
Defined.

Lemma listed_videos_are_tried_witness :
  (exists h',
     past_videos_json (snd (main env_upload_fails (restart sample_state)))
     = Some h' /\ In url_B h') \/
  In (Streams url_B)
     (log (snd (main env_upload_fails (restart sample_state)))).
Proof.
  pose (s1 := snd ((delete_old_videos env_upload_fails 14 ;;
                    print_now env_upload_fails)%m (restart sample_state))).
  apply (listed_videos_are_tried env_upload_fails sample_state s1
           (snd (download_channels_list_from_drive env_upload_fails s1))
           sample_state ["UC0"; "UC1"] [url_A] "UC1" url_B "b"
           [(url_A, "a"); (url_B, "b"); (url_C, "c")]).
  - intros. reflexivity.
  - intros. reflexivity.
  - vm_compute. reflexivity.
  - vm_compute. reflexivity.
  - reflexivity.
  - simpl. auto.
  - vm_compute. reflexivity.
  - simpl. auto.
Defined.
